(** * cloudwatchwriter: a shallow embedding of cloudwatch_writer.go

    The writer accepts log lines ([Write]), queues them, and a single
    background goroutine ([queueMonitor]) batches the queued events and
    ships them with [PutLogEvents] ([sendBatch]).

    Conventions of the embedding.
    - Go [int], [int64] and [time.Duration] values are modelled in [Z].  The
      only arithmetic of the source is [len(msg) + 26], [batchSize +
      messageSize], [retryNum + 1] and [now + interval]; string lengths are
      far below [2^63 - 26], the batch size never exceeds the larger of the
      limit and one message size, and [retryNum] stops at 2, so none of
      them wraps.
    - A Go value that may be [nil] (an [error], a [*string], a pointer to an
      output struct) is an [option].
    - The AWS client is an interface in the source; here it is a type class
      over an arbitrary client state, each method returning the new state.
      Go lets a method return [(nil, nil)], so output and error are two
      independent options.
    - The writer record carries one ghost field, [calls], the log of remote
      calls issued so far, oldest first.
    - [time.Now()] is an input of every operation that reads the clock. *)

From Stdlib Require Import ZArith List Ascii String Bool Lia.
Import ListNotations.
Open Scope Z_scope.

Set Implicit Arguments.

(** ** Constants (cloudwatch_writer.go, lines 15-33) *)

Definition minBatchInterval : Z := 200000000.
Definition defaultBatchInterval : Z := 5000000000.
Definition batchSizeLimit : Z := 1048576.
Definition maxNumLogEvents : Z := 10000.
Definition additionalBytesPerLogEvent : Z := 26.
(** [time.Millisecond], in nanoseconds. *)
Definition Millisecond : Z := 1000000.

(** Go [len] of a string or byte slice. *)
Definition len (s : string) : Z := Z.of_nat (String.length s).

(** ** Errors

    The error values the writer can see: the two typed AWS exceptions it
    tests for with [errors.As], any other error, the error made by
    [errors.New], and the wrapper of [errors.Wrap]/[errors.Wrapf] (also
    standing for any wrapper with an [Unwrap] method a client may return). *)

Module errors.

Inductive error : Type :=
| ResourceNotFoundException (msg : string)
| InvalidSequenceTokenException (ExpectedSequenceToken : option string)
| OtherError (msg : string)
| New (msg : string)
| withMessage (cause : error) (msg : string).

(** [errors.Wrap(err, msg)]: nil when [err] is nil. *)
Definition Wrap (err : option error) (msg : string) : option error :=
  match err with
  | None => None
  | Some e => Some (withMessage e msg)
  end.

(** [errors.As(err, &rnf)] with [rnf : *types.ResourceNotFoundException]:
    walks the [Unwrap] chain. *)
Fixpoint As_rnf (e : error) : bool :=
  match e with
  | ResourceNotFoundException _ => true
  | withMessage cause _ => As_rnf cause
  | _ => false
  end.

(** [errors.As(err, &ist)] with [ist : *types.InvalidSequenceTokenException];
    on success the result is [ist.ExpectedSequenceToken]. *)
Fixpoint As_ist (e : error) : option (option string) :=
  match e with
  | InvalidSequenceTokenException expected => Some expected
  | withMessage cause _ => As_ist cause
  | _ => None
  end.

(** [errors.As] on a possibly nil error: false on nil. *)
Definition As_rnf_opt (err : option error) : bool :=
  match err with
  | None => false
  | Some e => As_rnf e
  end.

End errors.
Import errors.

(** ** The AWS types the writer touches *)

Record InputLogEvent : Type := {
  Message : option string;
  Timestamp : option Z
}.

Record LogStream : Type := {
  UploadSequenceToken : option string
}.

Record DescribeLogStreamsInput : Type := {
  dlsLogGroupName : string;
  dlsLogStreamNamePrefix : string
}.

Record DescribeLogStreamsOutput : Type := {
  LogStreams : list LogStream
}.

Record PutLogEventsInput : Type := {
  LogEvents : list InputLogEvent;
  LogGroupName : string;
  LogStreamName : string;
  SequenceToken : option string
}.

Record PutLogEventsOutput : Type := {
  NextSequenceToken : option string
}.

(** The remote calls, as logged in the ghost field [calls]. *)
Inductive Call : Type :=
| CallDescribeLogStreams (input : DescribeLogStreamsInput)
| CallCreateLogGroup (group : string)
| CallCreateLogStream (group stream : string)
| CallPutLogEvents (input : PutLogEventsInput).

(** ** The client interface (lines 35-41) *)

Class CloudWatchLogsClient (St : Type) : Type := {
  DescribeLogStreams :
    St -> DescribeLogStreamsInput ->
    option DescribeLogStreamsOutput * option error * St;
  CreateLogGroup : St -> string -> option error * St;
  CreateLogStream : St -> string -> string -> option error * St;
  PutLogEvents :
    St -> PutLogEventsInput -> option PutLogEventsOutput * option error * St
}.

(** How a call of the model ends: it returns, it panics (a nil pointer
    dereference), or the model ran out of fuel.  The writer state reached
    is kept in every case. *)
Inductive outcome (W A : Type) : Type :=
| Returned (a : A) (w : W)
| Panicked (w : W)
| OutOfFuel (w : W).
Arguments Panicked {W A} w.
Arguments OutOfFuel {W A} w.

Section Writer.

Context {St : Type} `{CloudWatchLogsClient St}.

(** ** The writer (lines 43-55) *)

Record CloudWatchWriter : Type := {
  client : St;
  batchInterval : Z;
  queue : list InputLogEvent;
  err : option error;
  logGroupName : string;
  logStreamName : string;
  nextSequenceToken : option string;
  closing : bool;
  done : bool;
  calls : list Call
}.

Definition setClient (c : CloudWatchWriter) (s : St) : CloudWatchWriter :=
  {| client := s; batchInterval := batchInterval c; queue := queue c;
     err := err c; logGroupName := logGroupName c;
     logStreamName := logStreamName c;
     nextSequenceToken := nextSequenceToken c; closing := closing c;
     done := done c; calls := calls c |}.

Definition logCall (c : CloudWatchWriter) (k : Call) : CloudWatchWriter :=
  {| client := client c; batchInterval := batchInterval c; queue := queue c;
     err := err c; logGroupName := logGroupName c;
     logStreamName := logStreamName c;
     nextSequenceToken := nextSequenceToken c; closing := closing c;
     done := done c; calls := calls c ++ [k] |}.

Definition setQueue (c : CloudWatchWriter) (q : list InputLogEvent)
  : CloudWatchWriter :=
  {| client := client c; batchInterval := batchInterval c; queue := q;
     err := err c; logGroupName := logGroupName c;
     logStreamName := logStreamName c;
     nextSequenceToken := nextSequenceToken c; closing := closing c;
     done := done c; calls := calls c |}.

(** [close(c.done)]. *)
Definition closeDone (c : CloudWatchWriter) : CloudWatchWriter :=
  {| client := client c; batchInterval := batchInterval c; queue := queue c;
     err := err c; logGroupName := logGroupName c;
     logStreamName := logStreamName c;
     nextSequenceToken := nextSequenceToken c; closing := closing c;
     done := true; calls := calls c |}.

(** Lines 99-139: the locked getters and setters. *)
Definition setBatchInterval (c : CloudWatchWriter) (interval : Z)
  : CloudWatchWriter :=
  {| client := client c; batchInterval := interval; queue := queue c;
     err := err c; logGroupName := logGroupName c;
     logStreamName := logStreamName c;
     nextSequenceToken := nextSequenceToken c; closing := closing c;
     done := done c; calls := calls c |}.

Definition getBatchInterval (c : CloudWatchWriter) : Z := batchInterval c.

Definition setErr (c : CloudWatchWriter) (e : option error)
  : CloudWatchWriter :=
  {| client := client c; batchInterval := batchInterval c; queue := queue c;
     err := e; logGroupName := logGroupName c;
     logStreamName := logStreamName c;
     nextSequenceToken := nextSequenceToken c; closing := closing c;
     done := done c; calls := calls c |}.

Definition getErr (c : CloudWatchWriter) : option error := err c.

Definition setNextSequenceToken (c : CloudWatchWriter) (next : option string)
  : CloudWatchWriter :=
  {| client := client c; batchInterval := batchInterval c; queue := queue c;
     err := err c; logGroupName := logGroupName c;
     logStreamName := logStreamName c;
     nextSequenceToken := next; closing := closing c;
     done := done c; calls := calls c |}.

Definition getNextSequenceToken (c : CloudWatchWriter) : option string :=
  nextSequenceToken c.

(** Lines 248-260. *)
Definition isClosing (c : CloudWatchWriter) : bool := closing c.

Definition setClosing (c : CloudWatchWriter) : CloudWatchWriter :=
  {| client := client c; batchInterval := batchInterval c; queue := queue c;
     err := err c; logGroupName := logGroupName c;
     logStreamName := logStreamName c;
     nextSequenceToken := nextSequenceToken c; closing := true;
     done := done c; calls := calls c |}.

(** The lane queue: [Enqueue] appends at the back, [Dequeue] takes the
    front and yields nil on an empty queue. *)
Definition Enqueue (c : CloudWatchWriter) (e : InputLogEvent)
  : CloudWatchWriter :=
  setQueue c (queue c ++ [e]).

Definition Dequeue (c : CloudWatchWriter)
  : option InputLogEvent * CloudWatchWriter :=
  match queue c with
  | [] => (None, c)
  | item :: rest => (Some item, setQueue c rest)
  end.

(** ** SetBatchInterval (lines 90-97) *)

Definition SetBatchInterval (c : CloudWatchWriter) (interval : Z)
  : option error * CloudWatchWriter :=
  if interval <? minBatchInterval
  then (Some (New "supplied batch interval is less than the minimum"), c)
  else (None, setBatchInterval c interval).

(** ** Write (lines 142-157)

    [now] is [time.Now().UTC().UnixNano()]; Go's integer division
    truncates, hence [Z.quot].  The result is the pair [(int, error)]. *)

Definition Write (c : CloudWatchWriter) (log : string) (now : Z)
  : (Z * option error) * CloudWatchWriter :=
  let event := {| Message := Some log;
                  Timestamp := Some (Z.quot now Millisecond) |} in
  let c := Enqueue c event in
  let lastErr := getErr c in
  match lastErr with
  | Some _ => ((0, lastErr), setErr c None)
  | None => ((len log, None), c)
  end.

(** *** Write at the grain of its locks

    [Write] above is the function run without interruption.  The source
    takes three locks in turn: the queue's own in [Enqueue] (line 148),
    the read lock in [getErr] (line 151) and the write lock in
    [setErr(nil)] (line 153), and other goroutines run in between.  A call
    in progress is a machine like the monitor, with the locals of the
    function and a program point:
    - [WcEnqueue]: lines 143-148, [now] being the clock read on line 146;
    - [WcGetErr]: line 151;
    - [WcReport]: lines 152-156;
    - [WcReturned]: the call has returned [returns]. *)

Inductive write_pc : Type :=
| WcEnqueue | WcGetErr | WcReport | WcReturned.

Record WriteCall : Type := {
  at_wpc : write_pc;
  wlog : string;
  lastErr : option error;
  returns : option (Z * option error)
}.

(** A producer enters [Write(log)]. *)
Definition Write_call (log : string) : WriteCall :=
  {| at_wpc := WcEnqueue; wlog := log; lastErr := None; returns := None |}.

Definition Write_step (c : CloudWatchWriter) (w : WriteCall) (now : Z)
  : CloudWatchWriter * WriteCall :=
  match at_wpc w with
  | WcEnqueue =>
      let event := {| Message := Some (wlog w);
                      Timestamp := Some (Z.quot now Millisecond) |} in
      (Enqueue c event,
       {| at_wpc := WcGetErr; wlog := wlog w; lastErr := lastErr w;
          returns := None |})
  | WcGetErr =>
      (c, {| at_wpc := WcReport; wlog := wlog w; lastErr := getErr c;
             returns := None |})
  | WcReport =>
      match lastErr w with
      | Some _ =>
          (setErr c None,
           {| at_wpc := WcReturned; wlog := wlog w; lastErr := lastErr w;
              returns := Some (0, lastErr w) |})
      | None =>
          (c, {| at_wpc := WcReturned; wlog := wlog w; lastErr := lastErr w;
                 returns := Some (len (wlog w), None) |})
      end
  | WcReturned => (c, w)
  end.

(** ** sendBatch (lines 215-239)

    The recursion of the source is on [retryNum + 1] and stops above 1; the
    fuel of [sendBatch_fuel] is the number of remote attempts still
    allowed, and [sendBatch] supplies [2 - retryNum], which is always
    enough ([sendBatch_fuel_enough] below). *)

Fixpoint sendBatch_fuel (fuel : nat) (c : CloudWatchWriter)
    (batch : list InputLogEvent) (retryNum : Z)
  : outcome CloudWatchWriter unit :=
  if (retryNum >? 1) || (Z.of_nat (List.length batch) =? 0) then Returned tt c
  else
    match fuel with
    | O => OutOfFuel c
    | S fuel' =>
        let input := {| LogEvents := batch;
                        LogGroupName := logGroupName c;
                        LogStreamName := logStreamName c;
                        SequenceToken := getNextSequenceToken c |} in
        let '(output, e, s) := PutLogEvents (client c) input in
        let c := logCall (setClient c s) (CallPutLogEvents input) in
        match e with
        | Some e' =>
            match As_ist e' with
            | Some expected =>
                let c := setNextSequenceToken c expected in
                sendBatch_fuel fuel' c batch (retryNum + 1)
            | None => Returned tt (setErr c e)
            end
        | None =>
            match output with
            | Some o => Returned tt (setNextSequenceToken c (NextSequenceToken o))
            | None => Panicked c
            end
        end
    end.

Definition sendBatch (c : CloudWatchWriter) (batch : list InputLogEvent)
    (retryNum : Z) : outcome CloudWatchWriter unit :=
  sendBatch_fuel (Z.to_nat (2 - retryNum)) c batch retryNum.

(** ** getOrCreateLogStream (lines 266-301)

    The source calls itself after a successful [CreateLogGroup], with no
    counter; the fuel bounds the number of [DescribeLogStreams] queries the
    model may make.  The result is the Go pair of a [*types.LogStream] and an [error]. *)

Fixpoint getOrCreateLogStream (fuel : nat) (c : CloudWatchWriter)
  : outcome CloudWatchWriter (option LogStream * option error) :=
  match fuel with
  | O => OutOfFuel c
  | S fuel' =>
      let input := {| dlsLogGroupName := logGroupName c;
                      dlsLogStreamNamePrefix := logStreamName c |} in
      let '(output, e, s) := DescribeLogStreams (client c) input in
      let c := logCall (setClient c s) (CallDescribeLogStreams input) in
      match e, output with
      | None, Some out =>
          match LogStreams out with
          | first :: _ => Returned (Some first, None) c
          | [] =>
              let '(e, s) :=
                CreateLogStream (client c) (logGroupName c) (logStreamName c) in
              let c := logCall (setClient c s)
                         (CallCreateLogStream (logGroupName c)
                                              (logStreamName c)) in
              match e with
              | Some _ =>
                  Returned (None, Wrap e "cloudwatchlogs.Client.CreateLogStream") c
              | None => Returned (Some {| UploadSequenceToken := None |}, None) c
              end
          end
      | _, _ =>
          (* err != nil || output == nil *)
          if As_rnf_opt e then
            let '(e, s) := CreateLogGroup (client c) (logGroupName c) in
            let c := logCall (setClient c s)
                       (CallCreateLogGroup (logGroupName c)) in
            match e with
            | Some _ =>
                Returned (None, Wrap e "cloudwatchlog.Client.CreateLogGroup") c
            | None => getOrCreateLogStream fuel' c
            end
          else
            Returned (None, Wrap e "cloudwatchlogs.Client.DescribeLogStreams") c
      end
  end.

(** ** NewWithClient (lines 63-86)

    The result is the Go pair of a [*CloudWatchWriter] and an [error]
    (the text [errors.Wrapf] formats is not modelled).  Line 81 reads
    [logStream.UploadSequenceToken]: a nil [logStream] panics there.  The
    goroutine started on line 83 is the [Monitor] of the next section. *)

Definition NewWithClient (fuel : nat) (cl : St) (interval : Z)
    (group stream : string)
  : outcome CloudWatchWriter (option CloudWatchWriter * option error) :=
  let writer := {| client := cl; batchInterval := 0; queue := [];
                   err := None; logGroupName := group;
                   logStreamName := stream; nextSequenceToken := None;
                   closing := false; done := false; calls := [] |} in
  match SetBatchInterval writer interval with
  | (Some e, writer) =>
      Returned (None, Wrap (Some e) "set batch interval") writer
  | (None, writer) =>
      match getOrCreateLogStream fuel writer with
      | Returned (_, Some e) writer => Returned (None, Some e) writer
      | Returned (Some logStream, None) writer =>
          let writer :=
            setNextSequenceToken writer (UploadSequenceToken logStream) in
          Returned (Some writer, None) writer
      | Returned (None, None) writer => Panicked writer
      | Panicked writer => Panicked writer
      | OutOfFuel writer => OutOfFuel writer
      end
  end.

(** ** queueMonitor (lines 159-212)

    The goroutine is a machine with the locals of the function and a
    program point.  The steps are cut where the function reads the queue
    and the closing flag, the two fields its callers change under it:
    - [PcStart]: lines 160-162;
    - [PcLoop]: the timer test, lines 165-170;
    - [PcDequeue]: line 172, and for a dequeued item lines 186-210;
    - [PcEmpty]: after [Dequeue] gave nil, lines 175-183;
    - [PcExited]: the function has returned; [PcCrashed]: it panicked.
    A flush ([sendBatch] with its remote calls) is one action inside its
    step.  [now] is the value of [time.Now()] in the step; no step reads
    the clock twice on one path, except a step through both line 199 and
    line 209, which [size_and_count_flush_exclusive] shows impossible. *)

Inductive pc : Type :=
| PcStart | PcLoop | PcDequeue | PcEmpty | PcExited | PcCrashed.

Record Monitor : Type := {
  at_pc : pc;
  batch : list InputLogEvent;
  batchSize : Z;
  nextSendTime : Z
}.

Definition monitor_start : Monitor :=
  {| at_pc := PcStart; batch := []; batchSize := 0; nextSendTime := 0 |}.

Definition crashed (m : Monitor) : Monitor :=
  {| at_pc := PcCrashed; batch := batch m; batchSize := batchSize m;
     nextSendTime := nextSendTime m |}.

(** [c.sendBatch(batch, 0)] inside the monitor, followed by [k] when the
    call returns; a panic ends the goroutine.  The last case never arises
    ([sendBatch_total]). *)
Definition after_sendBatch (c : CloudWatchWriter) (m : Monitor)
    (k : CloudWatchWriter -> CloudWatchWriter * Monitor)
  : CloudWatchWriter * Monitor :=
  match sendBatch c (batch m) 0 with
  | Returned _ c' => k c'
  | Panicked c' => (c', crashed m)
  | OutOfFuel c' => (c', crashed m)
  end.

(** Lines 205-210, after the append. *)
Definition count_check (c : CloudWatchWriter) (m : Monitor) (now : Z)
  : CloudWatchWriter * Monitor :=
  if Z.of_nat (List.length (batch m)) >=? maxNumLogEvents then
    after_sendBatch c m (fun c' =>
      (c', {| at_pc := PcLoop; batch := []; batchSize := 0;
              nextSendTime := now + getBatchInterval c' |}))
  else
    (c, {| at_pc := PcLoop; batch := batch m; batchSize := batchSize m;
           nextSendTime := nextSendTime m |}).

(** Lines 202-203, then the count check. *)
Definition append_event (c : CloudWatchWriter) (m : Monitor)
    (logEvent : InputLogEvent) (messageSize now : Z)
  : CloudWatchWriter * Monitor :=
  count_check c
    {| at_pc := at_pc m; batch := batch m ++ [logEvent];
       batchSize := batchSize m + messageSize;
       nextSendTime := nextSendTime m |} now.

Definition queueMonitor_step (c : CloudWatchWriter) (m : Monitor) (now : Z)
  : CloudWatchWriter * Monitor :=
  match at_pc m with
  | PcStart =>
      (c, {| at_pc := PcLoop; batch := []; batchSize := 0;
             nextSendTime := now + getBatchInterval c |})
  | PcLoop =>
      if now >? nextSendTime m then
        after_sendBatch c m (fun c' =>
          (* line 169: the value of nextSendTime.Add(...) is discarded *)
          let _ := nextSendTime m + getBatchInterval c' in
          (c', {| at_pc := PcDequeue; batch := []; batchSize := 0;
                  nextSendTime := nextSendTime m |}))
      else
        (c, {| at_pc := PcDequeue; batch := batch m;
               batchSize := batchSize m; nextSendTime := nextSendTime m |})
  | PcDequeue =>
      match Dequeue c with
      | (None, c) =>
          (c, {| at_pc := PcEmpty; batch := batch m;
                 batchSize := batchSize m; nextSendTime := nextSendTime m |})
      | (Some logEvent, c) =>
          match Message logEvent with
          | None =>
              (c, {| at_pc := PcLoop; batch := batch m;
                     batchSize := batchSize m;
                     nextSendTime := nextSendTime m |})
          | Some msg =>
              let messageSize := len msg + additionalBytesPerLogEvent in
              if batchSize m + messageSize >? batchSizeLimit then
                after_sendBatch c m (fun c' =>
                  append_event c'
                    {| at_pc := at_pc m; batch := []; batchSize := 0;
                       nextSendTime := now + getBatchInterval c' |}
                    logEvent messageSize now)
              else append_event c m logEvent messageSize now
          end
      end
  | PcEmpty =>
      if isClosing c then
        after_sendBatch c m (fun c' =>
          (closeDone c',
           {| at_pc := PcExited; batch := batch m; batchSize := batchSize m;
              nextSendTime := nextSendTime m |}))
      else
        (* time.Sleep(time.Millisecond); continue *)
        (c, {| at_pc := PcLoop; batch := batch m; batchSize := batchSize m;
               nextSendTime := nextSendTime m |})
  | PcExited => (c, m)
  | PcCrashed => (c, m)
  end.

(** ** The writer with its goroutine and its callers

    A schedule is the order in which the actions of the producers and the
    steps of the monitor take place.  [EvClose] is the [setClosing] of
    [Close] (line 243); [Close] returns once [done] holds (line 245).
    [EvWrite] is a [Write] that runs without interruption.  The two parts
    of a [Write] that change the writer can also stand alone in a
    schedule: [EvWriteEnqueue] is the [Enqueue] of line 148 and
    [EvWriteClear] the [setErr(nil)] of line 153; the [getErr] of line 151
    changes nothing and needs no action.  A schedule may hold an
    [EvWriteClear] anywhere, which is more than the callers of [Write]
    can do: a statement about every schedule covers every interleaving of
    the parts of concurrent [Write]s ([turns_are_schedules]). *)

Inductive Event : Type :=
| EvWrite (log : string) (now : Z)
| EvSetBatchInterval (interval : Z)
| EvClose
| EvMonitor (now : Z)
| EvWriteEnqueue (log : string) (now : Z)
| EvWriteClear.

Record System : Type := {
  writer : CloudWatchWriter;
  monitor : Monitor
}.

(** The state [NewWithClient] leaves behind on line 83-85. *)
Definition spawn (c : CloudWatchWriter) : System :=
  {| writer := c; monitor := monitor_start |}.

Definition step (sys : System) (ev : Event) : System :=
  match ev with
  | EvWrite log now =>
      {| writer := snd (Write (writer sys) log now); monitor := monitor sys |}
  | EvSetBatchInterval interval =>
      {| writer := snd (SetBatchInterval (writer sys) interval);
         monitor := monitor sys |}
  | EvClose => {| writer := setClosing (writer sys); monitor := monitor sys |}
  | EvMonitor now =>
      let '(c, m) := queueMonitor_step (writer sys) (monitor sys) now in
      {| writer := c; monitor := m |}
  | EvWriteEnqueue log now =>
      {| writer := Enqueue (writer sys)
                     {| Message := Some log;
                        Timestamp := Some (Z.quot now Millisecond) |};
         monitor := monitor sys |}
  | EvWriteClear =>
      {| writer := setErr (writer sys) None; monitor := monitor sys |}
  end.

Definition run (sys : System) (evs : list Event) : System :=
  fold_left step evs sys.

(** *** The writer with calls of Write in progress

    A turn is an action of the schedule, a producer entering [Write], or
    the next part of the [i]-th call of [Write]. *)

Record Running : Type := {
  system : System;
  callers : list WriteCall
}.

Inductive Turn : Type :=
| TurnEvent (ev : Event)
| TurnCall (log : string)
| TurnWrite (i : nat) (now : Z).

Fixpoint set_caller (ws : list WriteCall) (i : nat) (w : WriteCall)
  : list WriteCall :=
  match ws, i with
  | [], _ => []
  | _ :: rest, O => w :: rest
  | w0 :: rest, S i' => w0 :: set_caller rest i' w
  end.

Definition turn (p : Running) (t : Turn) : Running :=
  match t with
  | TurnEvent ev => {| system := step (system p) ev; callers := callers p |}
  | TurnCall log =>
      {| system := system p; callers := callers p ++ [Write_call log] |}
  | TurnWrite i now =>
      match nth_error (callers p) i with
      | Some w =>
          let '(c, w') := Write_step (writer (system p)) w now in
          {| system := {| writer := c; monitor := monitor (system p) |};
             callers := set_caller (callers p) i w' |}
      | None => p
      end
  end.

Definition run_turns (p : Running) (ts : list Turn) : Running :=
  fold_left turn ts p.

(** What the [i]-th call of [Write] returned, if it has returned. *)
Definition returned_by (p : Running) (i : nat) : option (Z * option error) :=
  match nth_error (callers p) i with
  | Some w => returns w
  | None => None
  end.

(** The action of the schedule that a part of a call amounts to. *)
Definition Write_event (w : WriteCall) (now : Z) : option Event :=
  match at_wpc w with
  | WcEnqueue => Some (EvWriteEnqueue (wlog w) now)
  | WcReport =>
      match lastErr w with
      | Some _ => Some EvWriteClear
      | None => None
      end
  | _ => None
  end.

(** [Close] has returned: it set [closing] and found [done] closed. *)
Definition Close_returned (sys : System) : bool :=
  closing (writer sys) && done (writer sys).

(** ** Measures used by the statements *)

(** The size of one event as line 192 computes it. *)
Definition eventSize (e : InputLogEvent) : Z :=
  match Message e with
  | Some msg => len msg + additionalBytesPerLogEvent
  | None => additionalBytesPerLogEvent
  end.

Fixpoint batchBytes (b : list InputLogEvent) : Z :=
  match b with
  | [] => 0
  | e :: rest => eventSize e + batchBytes rest
  end.

(** The batches handed to [PutLogEvents], oldest first. *)
Fixpoint putBatches (ks : list Call) : list (list InputLogEvent) :=
  match ks with
  | [] => []
  | CallPutLogEvents input :: rest => LogEvents input :: putBatches rest
  | _ :: rest => putBatches rest
  end.

Fixpoint describeCount (ks : list Call) : nat :=
  match ks with
  | [] => O
  | CallDescribeLogStreams _ :: rest => S (describeCount rest)
  | _ :: rest => describeCount rest
  end.

Definition is_write (ev : Event) : bool :=
  match ev with
  | EvWrite _ _ => true
  | EvWriteEnqueue _ _ => true
  | EvWriteClear => true
  | _ => false
  end.

(** ** Predicates used by the statements and their proofs *)

(** What a [sendBatch] call may touch: the client, the token, the error
    slot and the call log, which grows by attempts on this very batch. *)
Record sendBatch_footprint (batch : list InputLogEvent)
    (c c' : CloudWatchWriter) : Prop := {
  fp_queue : queue c' = queue c;
  fp_closing : closing c' = closing c;
  fp_done : done c' = done c;
  fp_interval : batchInterval c' = batchInterval c;
  fp_group : logGroupName c' = logGroupName c;
  fp_stream : logStreamName c' = logStreamName c;
  fp_calls : exists new,
      calls c' = calls c ++ new /\
      Forall (fun b => b = batch /\ batch <> []) (putBatches new)
}.

(** One monitor step takes events from the front of the queue and adds
    none; and if it issued a remote call, the batch it leaves is empty or
    is the one event it has just dequeued, unless the goroutine ended. *)
Definition step_drops (c : CloudWatchWriter)
    (r : CloudWatchWriter * Monitor) : Prop :=
  (exists taken, queue c = taken ++ queue (fst r)) /\
  (calls (fst r) <> calls c ->
     at_pc (snd r) = PcExited \/ at_pc (snd r) = PcCrashed \/
     batch (snd r) = [] \/
     exists e rest, queue c = e :: rest /\ batch (snd r) = [e]).

(** A batch that may be handed to [PutLogEvents]: between 1 and 10,000
    events, and within the size limit unless it is a single event that is
    over the limit on its own. *)
Definition good_batch (batch : list InputLogEvent) : Prop :=
  0 < Z.of_nat (List.length batch) <= maxNumLogEvents /\
  (batchBytes batch <= batchSizeLimit \/
   exists e, batch = [e] /\ batchSizeLimit < eventSize e).

(** The loop invariant of [queueMonitor] on its locals. *)
Definition batch_inv (m : Monitor) : Prop :=
  at_pc m = PcCrashed \/
  (batchSize m = batchBytes (batch m) /\
   Z.of_nat (List.length (batch m)) < maxNumLogEvents /\
   (batch m = [] \/ good_batch (batch m))).

(** [c'] has made more remote calls than [c], all on good batches. *)
Definition calls_ext (c c' : CloudWatchWriter) : Prop :=
  exists new,
    calls c' = calls c ++ new /\ Forall good_batch (putBatches new).

(** *** What the monitor has to deliver *)

(** The items [queueMonitor] batches: line 187 skips an item whose message
    is nil. *)
Definition sendable (q : list InputLogEvent) : list InputLogEvent :=
  filter (fun e => match Message e with Some _ => true | None => false end) q.

(** The events the [Write]s of a schedule enqueue, in their order. *)
Fixpoint written (evs : list Event) : list InputLogEvent :=
  match evs with
  | [] => []
  | EvWrite log now :: rest =>
      {| Message := Some log; Timestamp := Some (Z.quot now Millisecond) |}
      :: written rest
  | EvWriteEnqueue log now :: rest =>
      {| Message := Some log; Timestamp := Some (Z.quot now Millisecond) |}
      :: written rest
  | _ :: rest => written rest
  end.

(** The batch the monitor still has to flush: none before line 160 has
    run, and none once the goroutine has ended. *)
Definition pending (m : Monitor) : list InputLogEvent :=
  match at_pc m with
  | PcStart | PcExited | PcCrashed => []
  | _ => batch m
  end.

(** [sent_as flushed puts]: the batches [puts] handed to [PutLogEvents]
    are the flushed batches in their order, each once or, after an
    ordering conflict, twice in a row. *)
Inductive sent_as :
  list (list InputLogEvent) -> list (list InputLogEvent) -> Prop :=
| sent_none : sent_as [] []
| sent_once b flushed puts :
    sent_as flushed puts -> sent_as (b :: flushed) (b :: puts)
| sent_twice b flushed puts :
    sent_as flushed puts -> sent_as (b :: flushed) (b :: b :: puts).

(** The events flushed so far, still held and still queued make up [all]:
    nothing is lost, repeated or reordered (a panic ends the account). *)
Definition conserved (c0 : CloudWatchWriter) (all : list InputLogEvent)
    (c : CloudWatchWriter) (m : Monitor) : Prop :=
  at_pc m = PcCrashed \/
  exists flushed new,
    calls c = calls c0 ++ new /\
    sent_as flushed (putBatches new) /\
    List.concat flushed ++ pending m ++ sendable (queue c) = all.

(** The number of monitor steps that surely end a closing monitor. *)
Definition drain_rank (c : CloudWatchWriter) (m : Monitor) : nat :=
  match at_pc m with
  | PcStart => 2 * List.length (queue c) + 4
  | PcLoop => 2 * List.length (queue c) + 3
  | PcDequeue => 2 * List.length (queue c) + 2
  | PcEmpty => 1
  | PcExited | PcCrashed => 0
  end.

(** What holds of a closing writer while only the monitor runs: the flag
    is set; the monitor found the queue empty only if it is empty; and if
    it has returned, [done] is closed and the queue is empty. *)
Definition closing_inv (c : CloudWatchWriter) (m : Monitor) : Prop :=
  closing c = true /\
  (at_pc m = PcEmpty -> queue c = []) /\
  (at_pc m = PcExited -> done c = true /\ queue c = []).

(** [c'] differs from [c] by remote calls only, none of them a
    [PutLogEvents]: the fields of the writer are as they were. *)
Definition only_talked (c c' : CloudWatchWriter) : Prop :=
  batchInterval c' = batchInterval c /\ queue c' = queue c /\
  err c' = err c /\ logGroupName c' = logGroupName c /\
  logStreamName c' = logStreamName c /\
  nextSequenceToken c' = nextSequenceToken c /\
  closing c' = closing c /\ done c' = done c /\
  exists new, calls c' = calls c ++ new /\ putBatches new = [].

(** An action that cannot by itself make the monitor send: a [Write],
    whole or in parts, or a monitor step with the clock within [interval]
    of [start]. *)
Definition holds_back (start interval : Z) (ev : Event) : Prop :=
  match ev with
  | EvWrite _ _ => True
  | EvMonitor now => start <= now <= start + interval
  | EvSetBatchInterval _ => False
  | EvClose => False
  | EvWriteEnqueue _ _ => True
  | EvWriteClear => True
  end.

(** The invariant of a monitor that is holding events back: not closing,
    the interval and the call log as at the start, the deadline not before
    [start + interval], and what is held, queued and still to be written
    within both limits. *)
Definition held_back (c0 : CloudWatchWriter) (start : Z) (rest : list Event)
    (c : CloudWatchWriter) (m : Monitor) : Prop :=
  closing c = false /\
  batchInterval c = batchInterval c0 /\
  calls c = calls c0 /\
  (at_pc m = PcStart \/
   ((at_pc m = PcLoop \/ at_pc m = PcDequeue \/ at_pc m = PcEmpty) /\
    start + batchInterval c0 <= nextSendTime m /\
    batchSize m = batchBytes (batch m))) /\
  batchBytes (pending m) + batchBytes (queue c) + batchBytes (written rest)
    <= batchSizeLimit /\
  Z.of_nat (List.length (pending m) + List.length (queue c)
            + List.length (written rest)) < maxNumLogEvents.

(** The monitor has ended, by returning or by a panic. *)
Definition ended (m : Monitor) : bool :=
  match at_pc m with
  | PcExited | PcCrashed => true
  | _ => false
  end.

End Writer.

Arguments CloudWatchWriter St : clear implicits.
Arguments System St : clear implicits.
Arguments Running St : clear implicits.

(** The writer state a call ended in. *)
Definition state_of {W A : Type} (o : outcome W A) : W :=
  match o with
  | Returned _ w => w
  | Panicked w => w
  | OutOfFuel w => w
  end.

(** Whether a call returned. *)
Definition returned {W A : Type} (o : outcome W A) : bool :=
  match o with
  | Returned _ _ => true
  | _ => false
  end.

(** Reduce the projections of an updated writer, and nothing else. *)
Ltac writer_fields :=
  cbn [client batchInterval queue err logGroupName logStreamName
       nextSequenceToken closing done calls
       setClient logCall setQueue setErr setNextSequenceToken
       setBatchInterval setClosing closeDone state_of].

(** Bring the two sides of an account of events to the same shape. *)
Ltac account Hpc :=
  unfold pending;
  cbn [fst snd at_pc batch queue setQueue closeDone];
  rewrite ?Hpc;
  try match goal with
      | Hfp : sendBatch_footprint _ _ _ |- _ => rewrite (fp_queue Hfp)
      end;
  cbn [fst snd at_pc batch queue setQueue closeDone app].

(** ** Concrete clients and schedules *)

Module Scenarios.

(** A scripted client: each method answers with the next entry of its
    script, and with plain success once the script is used up. *)
Record Script : Type := {
  onDescribe : list (option DescribeLogStreamsOutput * option error);
  onCreateLogGroup : list (option error);
  onCreateLogStream : list (option error);
  onPut : list (option PutLogEventsOutput * option error)
}.

Definition script_describe (s : Script) (_ : DescribeLogStreamsInput)
  : option DescribeLogStreamsOutput * option error * Script :=
  match onDescribe s with
  | [] => (Some {| LogStreams := [] |}, None, s)
  | r :: rest =>
      (fst r, snd r,
       {| onDescribe := rest; onCreateLogGroup := onCreateLogGroup s;
          onCreateLogStream := onCreateLogStream s; onPut := onPut s |})
  end.

Definition script_createLogGroup (s : Script) (_ : string)
  : option error * Script :=
  match onCreateLogGroup s with
  | [] => (None, s)
  | r :: rest =>
      (r, {| onDescribe := onDescribe s; onCreateLogGroup := rest;
             onCreateLogStream := onCreateLogStream s; onPut := onPut s |})
  end.

Definition script_createLogStream (s : Script) (_ _ : string)
  : option error * Script :=
  match onCreateLogStream s with
  | [] => (None, s)
  | r :: rest =>
      (r, {| onDescribe := onDescribe s;
             onCreateLogGroup := onCreateLogGroup s;
             onCreateLogStream := rest; onPut := onPut s |})
  end.

Definition script_put (s : Script) (_ : PutLogEventsInput)
  : option PutLogEventsOutput * option error * Script :=
  match onPut s with
  | [] => (Some {| NextSequenceToken := Some "next"%string |}, None, s)
  | r :: rest =>
      (fst r, snd r,
       {| onDescribe := onDescribe s;
          onCreateLogGroup := onCreateLogGroup s;
          onCreateLogStream := onCreateLogStream s; onPut := rest |})
  end.

#[export] Instance ScriptClient : CloudWatchLogsClient Script := {|
  DescribeLogStreams := script_describe;
  CreateLogGroup := script_createLogGroup;
  CreateLogStream := script_createLogStream;
  PutLogEvents := script_put
|}.

(** A service that answers every call with success. *)
Definition healthy : Script :=
  {| onDescribe := []; onCreateLogGroup := []; onCreateLogStream := [];
     onPut := [] |}.

(** A client that reports the log group missing on every query and
    succeeds on every creation. *)
Inductive AlwaysMissing : Type := always_missing.

#[export] Instance AlwaysMissingClient : CloudWatchLogsClient AlwaysMissing := {|
  DescribeLogStreams s _ :=
    (None, Some (ResourceNotFoundException "no such log group"%string), s);
  CreateLogGroup s _ := (None, s);
  CreateLogStream s _ _ := (None, s);
  PutLogEvents s _ :=
    (Some {| NextSequenceToken := None |}, None, s)
|}.

(** A fresh writer as line 64-70 builds it, with a valid interval. *)
Definition fresh {St : Type} (cl : St) : CloudWatchWriter St :=
  {| client := cl; batchInterval := defaultBatchInterval; queue := [];
     err := None; logGroupName := "group"%string;
     logStreamName := "stream"%string; nextSequenceToken := None;
     closing := false; done := false; calls := [] |}.

Definition event (msg : string) (ms : Z) : InputLogEvent :=
  {| Message := Some msg; Timestamp := Some ms |}.

(** The interleaving in which a producer writes and closes between the
    monitor's [Dequeue] (line 172) and its [isClosing] (line 175). *)
Definition race_schedule : list Event :=
  [ EvMonitor 0;            (* lines 160-162 *)
    EvMonitor 1000000;      (* line 165: the timer has not fired *)
    EvMonitor 2000000;      (* line 172: Dequeue gives nil *)
    EvWrite "lost" 3000000; (* a producer: Write *)
    EvClose;                (* the same producer: Close, line 243 *)
    EvMonitor 4000000 ].    (* line 175: isClosing is true *)

(** A message of [n] bytes. *)
Fixpoint bytes (n : nat) : string :=
  match n with
  | O => EmptyString
  | S n' => String "a"%char (bytes n')
  end.

(** One write, then the monitor takes it up and the writer is closed. *)
Definition single_write_schedule (msg : string) : list Event :=
  [ EvMonitor 0; EvWrite msg 0; EvMonitor 0; EvMonitor 0; EvClose;
    EvMonitor 0; EvMonitor 0; EvMonitor 0 ].

(** The writer [NewWithClient] returns against the [healthy] service. *)
Definition booted : CloudWatchWriter Script :=
  {| client := healthy; batchInterval := defaultBatchInterval; queue := [];
     err := None; logGroupName := "group"%string;
     logStreamName := "stream"%string; nextSequenceToken := None;
     closing := false; done := false;
     calls := [ CallDescribeLogStreams
                  {| dlsLogGroupName := "group"%string;
                     dlsLogStreamNamePrefix := "stream"%string |};
                CallCreateLogStream "group"%string "stream"%string ] |}.

Definition conflict (expected : string) : option PutLogEventsOutput * option error :=
  (None, Some (InvalidSequenceTokenException (Some expected))).

(** Two ordering conflicts in a row, the first wrapped as the SDK wraps
    operation errors. *)
Definition conflict_twice : Script :=
  {| onDescribe := []; onCreateLogGroup := []; onCreateLogStream := [];
     onPut := [ (None, Some (withMessage
                               (InvalidSequenceTokenException (Some "T1"%string))
                               "operation error PutLogEvents"%string));
                conflict "T2"%string ] |}.

Definition throttled : Script :=
  {| onDescribe := []; onCreateLogGroup := []; onCreateLogStream := [];
     onPut := [ (None, Some (OtherError "ThrottlingException"%string)) ] |}.

(** [DescribeLogStreams] answers with a nil output and a nil error. *)
Definition nil_describe : Script :=
  {| onDescribe := [ (None, None) ]; onCreateLogGroup := [];
     onCreateLogStream := []; onPut := [] |}.

Definition missing_group : option DescribeLogStreamsOutput * option error :=
  (None, Some (ResourceNotFoundException "no such log group"%string)).

Definition missing_once : Script :=
  {| onDescribe := [ missing_group ]; onCreateLogGroup := [];
     onCreateLogStream := []; onPut := [] |}.

Definition missing_twice : Script :=
  {| onDescribe := [ missing_group; missing_group ]; onCreateLogGroup := [];
     onCreateLogStream := []; onPut := [] |}.

(** A message of 1,048,551 bytes: with the 26 bytes of overhead, one
    byte over the batch size limit. *)
Definition oversize : string := bytes (Z.to_nat 1048551).

(** A monitor at the timer test, one event in its batch, its deadline
    at 5 s. *)
Definition monitor_waiting : Monitor :=
  {| at_pc := PcLoop; batch := [ event "a"%string 0 ]; batchSize := 27;
     nextSendTime := 5000000000 |}.

(** [DescribeLogStreams] fails with an error that is not a missing group. *)
Definition denied : Script :=
  {| onDescribe := [ (None, Some (OtherError "AccessDeniedException"%string)) ];
     onCreateLogGroup := []; onCreateLogStream := []; onPut := [] |}.

(** A monitor about to dequeue, with 9,999 events of 27 bytes in its
    batch. *)
Definition monitor_almost_full : Monitor :=
  {| at_pc := PcDequeue;
     batch := repeat (event "a"%string 0) (Z.to_nat 9999);
     batchSize := 269973; nextSendTime := 5000000000 |}.

(** A monitor about to dequeue, with one event of 27 bytes in its batch. *)
Definition monitor_holding_one : Monitor :=
  {| at_pc := PcDequeue; batch := [ event "a"%string 0 ]; batchSize := 27;
     nextSendTime := 5000000000 |}.

(** Two writes while the monitor runs, all within the first second. *)
Definition early_schedule : list Event :=
  [ EvMonitor 0; EvWrite "a" 100000000; EvMonitor 200000000;
    EvMonitor 300000000; EvWrite "b" 400000000; EvMonitor 500000000;
    EvMonitor 600000000; EvMonitor 700000000; EvMonitor 800000000 ].

(** The booted writer against a service whose next two [PutLogEvents]
    fail, with a throttling error and then with an outage. *)
Definition failing_twice : Script :=
  {| onDescribe := []; onCreateLogGroup := []; onCreateLogStream := [];
     onPut := [ (None, Some (OtherError "ThrottlingException"%string));
                (None, Some (OtherError "ServiceUnavailableException"%string)) ] |}.

Definition unlucky : Running Script :=
  {| system := spawn (setClient booted failing_twice); callers := [] |}.

(** One [Write], taken up by the monitor and flushed by its timer; the
    send fails and the throttling error is stored (line 235). *)
Definition first_failure : list Turn :=
  [ TurnEvent (EvMonitor 0);           (* lines 160-162, deadline at 5 s *)
    TurnCall "a"; TurnWrite 0 1000000000; TurnWrite 0 1000000000;
    TurnWrite 0 1000000000;            (* call 0 returns 1, nil *)
    TurnEvent (EvMonitor 2000000000);  (* line 165: not yet *)
    TurnEvent (EvMonitor 2000000000);  (* lines 172-210: "a" is batched *)
    TurnEvent (EvMonitor 6000000000)   (* line 165-166: the send fails *)
  ].

(** Two producers then write at the same time: both read the stored
    error (line 151) before either clears it (line 153). *)
Definition double_report : list Turn :=
  first_failure ++
  [ TurnCall "b"; TurnCall "c";
    TurnWrite 1 7000000000; TurnWrite 1 7000000000;   (* call 1 has read *)
    TurnWrite 2 7000000000; TurnWrite 2 7000000000;   (* call 2 has read *)
    TurnWrite 1 7000000000;                           (* call 1 reports *)
    TurnWrite 2 7000000000 ].                         (* call 2 reports *)

(** One producer writes while the monitor sends again: the second send
    fails between the read and the clear of the call. *)
Definition lost_error : list Turn :=
  first_failure ++
  [ TurnCall "b";
    TurnWrite 1 7000000000; TurnWrite 1 7000000000;   (* call 1 has read *)
    TurnEvent (EvMonitor 7000000000);  (* lines 172-210: "b" is batched *)
    TurnEvent (EvMonitor 8000000000);  (* line 165-166: the outage is stored *)
    TurnWrite 1 8000000000;            (* call 1 reports, and clears *)
    TurnCall "c"; TurnWrite 2 9000000000; TurnWrite 2 9000000000;
    TurnWrite 2 9000000000 ].          (* call 2 returns 1, nil *)

End Scenarios.
Import Scenarios.


(** * Properties *)

Section Properties.

Context {St : Type} `{CloudWatchLogsClient St}.

Implicit Types (c : CloudWatchWriter St) (m : Monitor)
  (batch : list InputLogEvent).

(** ** sendBatch: totality and footprint *)

Lemma sendBatch_fuel_unfold fuel c batch retryNum :
  sendBatch_fuel fuel c batch retryNum =
  if (retryNum >? 1) || (Z.of_nat (List.length batch) =? 0) then Returned tt c
  else
    match fuel with
    | O => OutOfFuel c
    | S fuel' =>
        let input := {| LogEvents := batch;
                        LogGroupName := logGroupName c;
                        LogStreamName := logStreamName c;
                        SequenceToken := getNextSequenceToken c |} in
        let '(output, e, s) := PutLogEvents (client c) input in
        let c := logCall (setClient c s) (CallPutLogEvents input) in
        match e with
        | Some e' =>
            match As_ist e' with
            | Some expected =>
                sendBatch_fuel fuel' (setNextSequenceToken c expected) batch
                  (retryNum + 1)
            | None => Returned tt (setErr c e)
            end
        | None =>
            match output with
            | Some o => Returned tt (setNextSequenceToken c (NextSequenceToken o))
            | None => Panicked c
            end
        end
    end.
Proof. destruct fuel; reflexivity. Qed.

Lemma guard_empty retryNum :
  (retryNum >? 1) || (Z.of_nat (@List.length InputLogEvent []) =? 0) = true.
Proof. apply orb_true_r. Qed.

Lemma guard_open batch retryNum :
  batch <> [] -> retryNum <= 1 ->
  (retryNum >? 1) || (Z.of_nat (List.length batch) =? 0) = false.
Proof.
  intros Hne Hr. apply orb_false_iff. split.
  - rewrite Z.gtb_ltb. apply Z.ltb_ge. exact Hr.
  - apply Z.eqb_neq. destruct batch as [|e rest]; [contradiction | simpl; lia].
Qed.

(** The fuel [sendBatch] supplies is enough: the call always ends. *)
Lemma sendBatch_fuel_enough fuel :
  forall c batch retryNum,
    2 - retryNum <= Z.of_nat fuel ->
    forall w, sendBatch_fuel fuel c batch retryNum <> OutOfFuel w.
Proof.
  induction fuel as [|fuel IH]; intros c batch retryNum Hfuel w;
    rewrite sendBatch_fuel_unfold.
  - destruct (retryNum >? 1) eqn:Hr; [discriminate|].
    rewrite Z.gtb_ltb in Hr. apply Z.ltb_ge in Hr. exfalso. lia.
  - destruct ((retryNum >? 1) || _); [discriminate|].
    cbv zeta.
    destruct (PutLogEvents _ _) as [[output e] s].
    destruct e as [e'|].
    + destruct (As_ist e'); [|discriminate].
      apply IH. lia.
    + destruct output; discriminate.
Qed.

Lemma sendBatch_total c batch retryNum w :
  sendBatch c batch retryNum <> OutOfFuel w.
Proof.
  unfold sendBatch. apply sendBatch_fuel_enough. lia.
Qed.

Lemma footprint_refl batch c : sendBatch_footprint batch c c.
Proof.
  constructor; try reflexivity.
  exists []. split; [symmetry; apply app_nil_r | constructor].
Qed.

Lemma sendBatch_fuel_footprint fuel :
  forall c batch retryNum,
    sendBatch_footprint batch c
      (state_of (sendBatch_fuel fuel c batch retryNum)).
Proof.
  induction fuel as [|fuel IH]; intros c batch retryNum;
    rewrite sendBatch_fuel_unfold.
  - destruct (_ || _); apply footprint_refl.
  - destruct ((retryNum >? 1) || _) eqn:Hguard; [apply footprint_refl|].
    apply orb_false_iff in Hguard. destruct Hguard as [_ Hlen].
    assert (Hne : batch <> []).
    { intros ->. simpl in Hlen. discriminate. }
    cbv zeta.
    destruct (PutLogEvents _ _) as [[output e] s].
    set (input := {| LogEvents := batch; LogGroupName := logGroupName c;
                     LogStreamName := logStreamName c;
                     SequenceToken := getNextSequenceToken c |}).
    assert (Hone : forall c1,
               queue c1 = queue c -> closing c1 = closing c ->
               done c1 = done c -> batchInterval c1 = batchInterval c ->
               logGroupName c1 = logGroupName c ->
               logStreamName c1 = logStreamName c ->
               calls c1 = calls c ++ [CallPutLogEvents input] ->
               sendBatch_footprint batch c c1).
    { intros c1 ? ? ? ? ? ? Hc. constructor; try assumption.
      exists [CallPutLogEvents input]. split; [exact Hc|].
      simpl. constructor; [split; [reflexivity | exact Hne] | constructor]. }
    destruct e as [e'|].
    + destruct (As_ist e') as [expected|].
      * specialize (IH (setNextSequenceToken
                          (logCall (setClient c s) (CallPutLogEvents input))
                          expected) batch (retryNum + 1)).
        destruct IH as [? ? ? ? ? ? [new [Hnew Hall]]].
        constructor; try assumption.
        exists (CallPutLogEvents input :: new). split.
        -- rewrite Hnew. simpl. rewrite <- app_assoc. reflexivity.
        -- simpl. constructor; [split; [reflexivity | exact Hne] | exact Hall].
      * apply Hone; reflexivity.
    + destruct output; apply Hone; reflexivity.
Qed.

Lemma sendBatch_footprint_holds c batch retryNum :
  sendBatch_footprint batch c (state_of (sendBatch c batch retryNum)).
Proof. apply sendBatch_fuel_footprint. Qed.

Lemma sendBatch_nil c retryNum : sendBatch c [] retryNum = Returned tt c.
Proof.
  unfold sendBatch. rewrite sendBatch_fuel_unfold, guard_empty. reflexivity.
Qed.

(** A rule for the monitor's flushes: whatever holds of the continuation
    on every state [sendBatch] can leave, and of a crash, holds of the
    flush. *)
Lemma after_sendBatch_rule c m k
    (Q : CloudWatchWriter St * Monitor -> Prop) :
  (forall c', sendBatch c (batch m) 0 = Returned tt c' ->
              sendBatch_footprint (batch m) c c' -> Q (k c')) ->
  (forall c', sendBatch_footprint (batch m) c c' -> Q (c', crashed m)) ->
  Q (after_sendBatch c m k).
Proof.
  intros Hret Hcrash. unfold after_sendBatch.
  pose proof (sendBatch_footprint_holds c (batch m) 0) as Hfp.
  destruct (sendBatch c (batch m) 0) as [[] c'|c'|c'] eqn:Hsend; simpl in Hfp.
  - apply Hret; [reflexivity | exact Hfp].
  - apply Hcrash. exact Hfp.
  - apply Hcrash. exact Hfp.
Qed.

Lemma putBatches_app ks ks' :
  putBatches (ks ++ ks') = putBatches ks ++ putBatches ks'.
Proof.
  induction ks as [|k ks IH]; simpl; [reflexivity|].
  destruct k; simpl; rewrite ?IH; reflexivity.
Qed.

Lemma batchBytes_app b b' : batchBytes (b ++ b') = batchBytes b + batchBytes b'.
Proof.
  induction b as [|e b IH]; simpl; [reflexivity | rewrite IH; ring].
Qed.

(** ** The claims about single operations *)

(** C8. [SetBatchInterval] fails exactly below the 200 ms floor, and then
    leaves the writer as it was; from the floor upwards it returns nil and
    stores the interval, touching nothing else. *)
Theorem SetBatchInterval_floor :
  forall c interval,
    let r := SetBatchInterval c interval in
    (fst r <> None <-> interval < 200000000) /\
    (interval < 200000000 -> snd r = c) /\
    (200000000 <= interval ->
       fst r = None /\ batchInterval (snd r) = interval /\
       snd r = setBatchInterval c interval).
Proof.
  intros c interval r. subst r. unfold SetBatchInterval, minBatchInterval.
  destruct (interval <? 200000000) eqn:Hlt; simpl.
  - apply Z.ltb_lt in Hlt. split; [|split].
    + split; [intros _; exact Hlt | intros _; discriminate].
    + reflexivity.
    + intros Hge. exfalso. lia.
  - apply Z.ltb_ge in Hlt. split; [|split].
    + split; [intros Hno; exfalso; apply Hno; reflexivity | intros Hsmall; lia].
    + intros Hsmall. lia.
    + intros _. repeat split.
Qed.

(** An uninterrupted [Write] appends to the queue an event carrying the log
    line and the clock reading in milliseconds; it returns the stored
    error, if any, with 0 bytes and clears the slot, and returns the
    length of the line with a nil error otherwise; an uninterrupted
    [Write] that follows, with no failure in between, returns the length
    of its line and a nil error. *)
Theorem Write_reports_error_once :
  forall c log now,
    let r := Write c log now in
    queue (snd r) =
      queue c ++ [{| Message := Some log;
                     Timestamp := Some (Z.quot now 1000000) |}] /\
    snd (fst r) = err c /\
    fst (fst r) = match err c with Some _ => 0 | None => len log end /\
    err (snd r) = None /\
    nextSequenceToken (snd r) = nextSequenceToken c /\
    calls (snd r) = calls c /\
    forall log' now', fst (Write (snd r) log' now') = (len log', None).
Proof.
  intros c log now r. subst r. unfold Write, Enqueue, getErr, Millisecond.
  simpl. destruct (err c) as [e|] eqn:He; simpl.
  - repeat split; reflexivity.
  - rewrite He. repeat split; reflexivity.
Qed.

(** C3. When the first attempt on a non-empty batch fails with an ordering
    conflict that reports the expected token [T], [sendBatch] makes exactly
    one more attempt, on the same batch and with sequence token [T], and
    none after it, whatever the second answer is; when the second answer
    is an ordering conflict too, the call returns with the token it
    reported stored, the error slot and the queue untouched. *)
Theorem sendBatch_retries_conflict_once :
  forall c batch out1 e1 s1 T,
    batch <> [] ->
    PutLogEvents (client c)
      {| LogEvents := batch; LogGroupName := logGroupName c;
         LogStreamName := logStreamName c;
         SequenceToken := nextSequenceToken c |} = (out1, Some e1, s1) ->
    As_ist e1 = Some T ->
    let first := {| LogEvents := batch; LogGroupName := logGroupName c;
                    LogStreamName := logStreamName c;
                    SequenceToken := nextSequenceToken c |} in
    let retry := {| LogEvents := batch; LogGroupName := logGroupName c;
                    LogStreamName := logStreamName c;
                    SequenceToken := T |} in
    let final := state_of (sendBatch c batch 0) in
    calls final = calls c ++ [CallPutLogEvents first; CallPutLogEvents retry] /\
    queue final = queue c /\
    forall out2 e2 s2 T2,
      PutLogEvents s1 retry = (out2, Some e2, s2) ->
      As_ist e2 = Some T2 ->
      sendBatch c batch 0 = Returned tt final /\
      nextSequenceToken final = T2 /\
      err final = err c /\
      client final = s2.
Proof.
  intros c batch out1 e1 s1 T Hne Hput HT first retry final.
  subst final. unfold sendBatch.
  change (Z.to_nat (2 - 0)) with 2%nat.
  rewrite sendBatch_fuel_unfold, (guard_open (retryNum := 0) Hne) by lia.
  cbv zeta. unfold getNextSequenceToken. rewrite Hput, HT.
  rewrite sendBatch_fuel_unfold, (guard_open (retryNum := 0 + 1) Hne) by lia.
  cbv zeta. unfold getNextSequenceToken. simpl.
  fold first. fold retry.
  destruct (PutLogEvents s1 retry) as [[out2 e2] s2] eqn:Hput2.
  assert (Hcalls : forall k : Call, (calls c ++ [CallPutLogEvents first]) ++ [k]
                     = calls c ++ [CallPutLogEvents first; k]).
  { intros k. rewrite <- app_assoc. reflexivity. }
  destruct e2 as [e2|].
  - destruct (As_ist e2) as [T2|] eqn:HT2; simpl.
    + split; [apply Hcalls | split; [reflexivity|]].
      intros out2' e2' s2' T2' Heq HT2'. inversion Heq; subst.
      rewrite HT2 in HT2'. inversion HT2'. repeat split.
    + split; [apply Hcalls | split; [reflexivity|]].
      intros out2' e2' s2' T2' Heq HT2'. inversion Heq; subst.
      rewrite HT2 in HT2'. discriminate.
  - destruct out2; simpl.
    all: split; [apply Hcalls | split; [reflexivity|]].
    all: intros out2' e2' s2' T2' Heq HT2'; discriminate.
Qed.

(** ** The monitor never takes a flushed batch up again *)

(** After the flush of line 196 the batch has one event, so the test of
    line 205 fails: no step flushes twice. *)
Lemma size_and_count_flush_exclusive c pc0 next logEvent messageSize now :
  append_event c {| at_pc := pc0; batch := []; batchSize := 0;
                    nextSendTime := next |} logEvent messageSize now =
  (c, {| at_pc := PcLoop; batch := [logEvent]; batchSize := messageSize;
         nextSendTime := next |}).
Proof. reflexivity. Qed.

Lemma count_check_drops c0 c m now taken :
  queue c0 = taken ++ queue c ->
  (calls c = calls c0) ->
  step_drops c0 (count_check c m now).
Proof.
  intros Hq Hcalls. unfold count_check.
  destruct (_ >=? _).
  - apply after_sendBatch_rule.
    + intros c' _ Hfp. split; simpl.
      * exists taken. rewrite (fp_queue Hfp). exact Hq.
      * intros _. right. right. left. reflexivity.
    + intros c' Hfp. split; simpl.
      * exists taken. rewrite (fp_queue Hfp). exact Hq.
      * intros _. right. left. reflexivity.
  - split; simpl.
    + exists taken. exact Hq.
    + intros Hne. contradiction.
Qed.

Lemma queueMonitor_step_drops c m now :
  step_drops c (queueMonitor_step c m now).
Proof.
  assert (Hsame : forall m', step_drops c (c, m')).
  { intros m'. split; simpl; [exists []; reflexivity | intros Hne; contradiction]. }
  unfold queueMonitor_step.
  destruct (at_pc m) eqn:Hpc; try apply Hsame.
  - (* PcLoop *)
    destruct (now >? nextSendTime m); [|apply Hsame].
    apply after_sendBatch_rule.
    + intros c' _ Hfp. split; simpl.
      * exists []. rewrite (fp_queue Hfp). reflexivity.
      * intros _. right. right. left. reflexivity.
    + intros c' Hfp. split; simpl.
      * exists []. rewrite (fp_queue Hfp). reflexivity.
      * intros _. right. left. reflexivity.
  - (* PcDequeue *)
    unfold Dequeue. destruct (queue c) as [|item rest] eqn:Hqueue.
    + apply Hsame.
    + destruct (Message item) as [msg|].
      * destruct (_ >? batchSizeLimit).
        -- apply after_sendBatch_rule.
           ++ intros c' _ Hfp. rewrite size_and_count_flush_exclusive.
              split; simpl.
              ** exists [item]. rewrite (fp_queue Hfp). simpl. exact Hqueue.
              ** intros _. right. right. right. exists item, rest.
                 split; [exact Hqueue | reflexivity].
           ++ intros c' Hfp. split; simpl.
              ** exists [item]. rewrite (fp_queue Hfp). simpl. exact Hqueue.
              ** intros _. right. left. reflexivity.
        -- apply count_check_drops with (taken := [item]).
           ++ simpl. exact Hqueue.
           ++ reflexivity.
      * split; simpl; [exists [item]; exact Hqueue | intros Hne; contradiction].
  - (* PcEmpty *)
    destruct (isClosing c); [|apply Hsame].
    apply after_sendBatch_rule.
    + intros c' _ Hfp. split; simpl.
      * exists []. rewrite (fp_queue Hfp). reflexivity.
      * intros _. left. reflexivity.
    + intros c' Hfp. split; simpl.
      * exists []. rewrite (fp_queue Hfp). reflexivity.
      * intros _. right. left. reflexivity.
Qed.

(** C7. When an attempt on a non-empty batch fails with an error that is
    not an ordering conflict, [sendBatch] returns after that one attempt
    with the error stored in the error slot, the sequence token and the
    queue as they were; and no monitor step puts events back: a step only
    takes from the front of the queue, and after a step that issued a
    remote call the monitor's batch is empty or holds only the event just
    dequeued (or the goroutine has ended). *)
Theorem sendBatch_failure_drops_batch :
  forall c batch retryNum out e s,
    batch <> [] ->
    retryNum <= 1 ->
    PutLogEvents (client c)
      {| LogEvents := batch; LogGroupName := logGroupName c;
         LogStreamName := logStreamName c;
         SequenceToken := nextSequenceToken c |} = (out, Some e, s) ->
    As_ist e = None ->
    (exists c',
       sendBatch c batch retryNum = Returned tt c' /\
       err c' = Some e /\
       nextSequenceToken c' = nextSequenceToken c /\
       queue c' = queue c /\
       client c' = s /\
       calls c' =
         calls c ++
         [CallPutLogEvents
            {| LogEvents := batch; LogGroupName := logGroupName c;
               LogStreamName := logStreamName c;
               SequenceToken := nextSequenceToken c |}]) /\
    (forall c0 m now, step_drops c0 (queueMonitor_step c0 m now)).
Proof.
  intros c batch retryNum out e s Hne Hr Hput Hist.
  split; [|intros; apply queueMonitor_step_drops].
  unfold sendBatch.
  destruct (Z.to_nat (2 - retryNum)) as [|fuel] eqn:Hfuel; [lia|].
  rewrite sendBatch_fuel_unfold, (guard_open Hne Hr).
  cbv zeta. unfold getNextSequenceToken. rewrite Hput, Hist.
  eexists. split; [reflexivity|]. simpl. repeat split.
Qed.

(** C2, as the code has it.  In a step of the timer test in which the
    clock is past the deadline, the batch is flushed and reset, but the
    stored deadline stays what it was: line 169 computes
    [nextSendTime.Add(...)] and drops the value. *)
Theorem timer_flush_keeps_deadline :
  forall c m now,
    at_pc m = PcLoop ->
    nextSendTime m < now ->
    let r := queueMonitor_step c m now in
    nextSendTime (snd r) = nextSendTime m /\
    (at_pc (snd r) = PcDequeue /\ batch (snd r) = [] /\ batchSize (snd r) = 0
     \/ at_pc (snd r) = PcCrashed).
Proof.
  intros c m now Hpc Hnow r. subst r. unfold queueMonitor_step.
  rewrite Hpc.
  replace (now >? nextSendTime m) with true
    by (symmetry; rewrite Z.gtb_ltb; apply Z.ltb_lt; exact Hnow).
  apply after_sendBatch_rule.
  - intros c' _ _. simpl. split; [reflexivity | left; repeat split].
  - intros c' _. simpl. split; [reflexivity | right; reflexivity].
Qed.

(** With the clock exactly at the deadline the timer test of line 165
    ([After]) does not fire. *)
Lemma timer_is_strict c m :
  at_pc m = PcLoop ->
  queueMonitor_step c m (nextSendTime m) =
  (c, {| at_pc := PcDequeue; batch := batch m; batchSize := batchSize m;
         nextSendTime := nextSendTime m |}).
Proof.
  intros Hpc. unfold queueMonitor_step. rewrite Hpc.
  replace (nextSendTime m >? nextSendTime m) with false; [reflexivity|].
  symmetry. rewrite Z.gtb_ltb. apply Z.ltb_irrefl.
Qed.

(** ** The bounds on the batches sent *)

Lemma calls_ext_refl c c' : calls c' = calls c -> calls_ext c c'.
Proof.
  intros Heq. exists []. rewrite Heq, app_nil_r. split; [reflexivity|constructor].
Qed.

Lemma calls_ext_trans c1 c2 c3 :
  calls_ext c1 c2 -> calls_ext c2 c3 -> calls_ext c1 c3.
Proof.
  intros [n1 [H1 G1]] [n2 [H2 G2]]. exists (n1 ++ n2). split.
  - rewrite H2, H1, app_assoc. reflexivity.
  - rewrite putBatches_app. apply Forall_app. split; assumption.
Qed.

Lemma footprint_ext batch c c' :
  batch = [] \/ good_batch batch ->
  sendBatch_footprint batch c c' -> calls_ext c c'.
Proof.
  intros Hgood Hfp. destruct (fp_calls Hfp) as [new [Hnew Hall]].
  exists new. split; [exact Hnew|].
  eapply Forall_impl; [|exact Hall].
  intros b [-> Hne]. destruct Hgood as [Hnil|Hgood]; [contradiction|exact Hgood].
Qed.

Lemma batch_inv_empty p t :
  batch_inv {| at_pc := p; batch := []; batchSize := 0; nextSendTime := t |}.
Proof.
  right. simpl. split; [reflexivity|].
  split; [unfold maxNumLogEvents; lia | left; reflexivity].
Qed.

Lemma count_check_inv c0 c m now :
  calls_ext c0 c ->
  batchSize m = batchBytes (batch m) ->
  good_batch (batch m) ->
  batch_inv (snd (count_check c m now)) /\
  calls_ext c0 (fst (count_check c m now)).
Proof.
  intros Hext Hsize Hgood. unfold count_check.
  destruct (_ >=? _) eqn:Hcount.
  - apply after_sendBatch_rule.
    + intros c' _ Hfp. simpl. split.
      * apply batch_inv_empty.
      * eapply calls_ext_trans; [exact Hext|].
        eapply footprint_ext; [right; exact Hgood | exact Hfp].
    + intros c' Hfp. simpl. split.
      * left. reflexivity.
      * eapply calls_ext_trans; [exact Hext|].
        eapply footprint_ext; [right; exact Hgood | exact Hfp].
  - simpl. split; [|exact Hext].
    right. split; [exact Hsize|]. split; [|right; exact Hgood].
    rewrite Z.geb_leb in Hcount. apply Z.leb_gt in Hcount. exact Hcount.
Qed.

Lemma queueMonitor_step_inv c m now :
  batch_inv m ->
  batch_inv (snd (queueMonitor_step c m now)) /\
  calls_ext c (fst (queueMonitor_step c m now)).
Proof.
  intros Hinv.
  assert (Hsame : forall m', batch_inv m' ->
            batch_inv (snd (c, m')) /\ calls_ext c (fst (c, m'))).
  { intros m' Hm'. split; [exact Hm' | apply calls_ext_refl; reflexivity]. }
  destruct Hinv as [Hdead|[Hsize [Hlen Hgood]]].
  { unfold queueMonitor_step. rewrite Hdead. apply Hsame. left. exact Hdead. }
  assert (Hkeep : forall p, batch_inv {| at_pc := p; batch := batch m;
                                         batchSize := batchSize m;
                                         nextSendTime := nextSendTime m |}).
  { intros p. right. simpl. split; [exact Hsize|]. split; assumption. }
  pose proof batch_inv_empty as Hempty.
  unfold queueMonitor_step.
  destruct (at_pc m) eqn:Hpc.
  - (* PcStart *) apply Hsame. apply Hempty.
  - (* PcLoop *)
    destruct (now >? nextSendTime m); [|apply Hsame; apply Hkeep].
    apply after_sendBatch_rule.
    + intros c' _ Hfp. simpl. split; [apply Hempty|].
      eapply footprint_ext; [exact Hgood | exact Hfp].
    + intros c' Hfp. simpl. split; [left; reflexivity|].
      eapply footprint_ext; [exact Hgood | exact Hfp].
  - (* PcDequeue *)
    unfold Dequeue. destruct (queue c) as [|item rest] eqn:Hqueue.
    + apply Hsame. apply Hkeep.
    + destruct (Message item) as [msg|] eqn:Hmsg.
      * assert (Hev : eventSize item = len msg + additionalBytesPerLogEvent).
        { unfold eventSize. rewrite Hmsg. reflexivity. }
        assert (Hpos : 0 <= len msg) by (unfold len; lia).
        destruct (_ >? batchSizeLimit) eqn:Hover.
        -- apply after_sendBatch_rule.
           ++ intros c' _ Hfp. rewrite size_and_count_flush_exclusive.
              simpl. split.
              ** right. simpl. split; [rewrite Hev; ring|].
                 split; [unfold maxNumLogEvents; lia|].
                 right. split; [unfold maxNumLogEvents; simpl; lia|].
                 simpl. destruct (Z_le_gt_dec (eventSize item) batchSizeLimit).
                 --- left. lia.
                 --- right. exists item. split; [reflexivity | lia].
              ** eapply calls_ext_trans;
                   [apply calls_ext_refl with (c' := setQueue c rest); reflexivity|].
                 eapply footprint_ext; [exact Hgood | exact Hfp].
           ++ intros c' Hfp. simpl. split; [left; reflexivity|].
              eapply calls_ext_trans;
                [apply calls_ext_refl with (c' := setQueue c rest); reflexivity|].
              eapply footprint_ext; [exact Hgood | exact Hfp].
        -- unfold append_event. apply count_check_inv.
           ++ apply calls_ext_refl. reflexivity.
           ++ simpl. rewrite batchBytes_app. simpl. rewrite Hsize, Hev. ring.
           ++ rewrite Z.gtb_ltb in Hover. apply Z.ltb_ge in Hover.
              simpl. split.
              ** rewrite length_app. simpl. unfold maxNumLogEvents in *. lia.
              ** left. rewrite batchBytes_app. simpl. rewrite <- Hsize, Hev. lia.
      * split; [apply Hkeep | apply calls_ext_refl; reflexivity].
  - (* PcEmpty *)
    destruct (isClosing c); [|apply Hsame; apply Hkeep].
    apply after_sendBatch_rule.
    + intros c' _ Hfp. simpl. split; [apply Hkeep|].
      eapply calls_ext_trans;
        [eapply footprint_ext; [exact Hgood | exact Hfp]|].
      apply calls_ext_refl. reflexivity.
    + intros c' Hfp. simpl. split; [left; reflexivity|].
      eapply footprint_ext; [exact Hgood | exact Hfp].
  - (* PcExited *) apply Hsame. apply Hkeep.
  - (* PcCrashed *) apply Hsame. left. exact Hpc.
Qed.

Lemma Write_calls c log now : calls (snd (Write c log now)) = calls c.
Proof. unfold Write, getErr. simpl. destruct (err c); reflexivity. Qed.

Lemma SetBatchInterval_calls c interval :
  calls (snd (SetBatchInterval c interval)) = calls c.
Proof. unfold SetBatchInterval. destruct (_ <? _); reflexivity. Qed.

Lemma step_inv (sys : System St) ev :
  batch_inv (monitor sys) ->
  batch_inv (monitor (step sys ev)) /\
  calls_ext (writer sys) (writer (step sys ev)).
Proof.
  intros Hinv. destruct ev as [log now|interval| |now|log now| ]; simpl.
  - split; [exact Hinv | apply calls_ext_refl, Write_calls].
  - split; [exact Hinv | apply calls_ext_refl, SetBatchInterval_calls].
  - split; [exact Hinv | apply calls_ext_refl; reflexivity].
  - pose proof (queueMonitor_step_inv (writer sys) now Hinv) as Hstep.
    destruct (queueMonitor_step (writer sys) (monitor sys) now) as [c' m'].
    exact Hstep.
  - split; [exact Hinv | apply calls_ext_refl; reflexivity].
  - split; [exact Hinv | apply calls_ext_refl; reflexivity].
Qed.

Lemma run_inv evs :
  forall (sys : System St),
    batch_inv (monitor sys) ->
    calls_ext (writer sys) (writer (run sys evs)).
Proof.
  induction evs as [|ev evs IH]; intros sys Hinv; simpl.
  - apply calls_ext_refl. reflexivity.
  - destruct (@step_inv sys ev Hinv) as [Hinv' Hext].
    eapply calls_ext_trans; [exact Hext | apply IH; exact Hinv'].
Qed.

(** C1, as the code has it.  Whatever the producers do and however the
    steps interleave, every batch the monitor hands to [PutLogEvents] has
    between 1 and 10,000 events, and its size (the sum of
    [len(message) + 26]) is at most 1,048,576, unless the batch is one
    single event whose own size is over 1,048,576. *)
Theorem sent_batches_bounded :
  forall (c : CloudWatchWriter St) (evs : list Event),
  exists new,
    calls (writer (run (spawn c) evs)) = calls c ++ new /\
    Forall (fun b =>
              0 < Z.of_nat (List.length b) <= 10000 /\
              (batchBytes b <= 1048576 \/
               exists e, b = [e] /\ 1048576 < eventSize e))
           (putBatches new).
Proof.
  intros c evs.
  apply (@run_inv evs (spawn c)).
  apply batch_inv_empty.
Qed.

(** ** The bootstrap *)

Lemma describeCount_app ks ks' :
  describeCount (ks ++ ks') = (describeCount ks + describeCount ks')%nat.
Proof.
  induction ks as [|k ks IH]; simpl; [reflexivity|].
  destruct k; simpl; rewrite ?IH; reflexivity.
Qed.

Lemma getOrCreateLogStream_S fuel c :
  getOrCreateLogStream (S fuel) c =
  let input := {| dlsLogGroupName := logGroupName c;
                  dlsLogStreamNamePrefix := logStreamName c |} in
  let '(output, e, s) := DescribeLogStreams (client c) input in
  let c := logCall (setClient c s) (CallDescribeLogStreams input) in
  match e, output with
  | None, Some out =>
      match LogStreams out with
      | first :: _ => Returned (Some first, None) c
      | [] =>
          let '(e, s) :=
            CreateLogStream (client c) (logGroupName c) (logStreamName c) in
          let c := logCall (setClient c s)
                     (CallCreateLogStream (logGroupName c) (logStreamName c)) in
          match e with
          | Some _ =>
              Returned (None, Wrap e "cloudwatchlogs.Client.CreateLogStream") c
          | None => Returned (Some {| UploadSequenceToken := None |}, None) c
          end
      end
  | _, _ =>
      if As_rnf_opt e then
        let '(e, s) := CreateLogGroup (client c) (logGroupName c) in
        let c := logCall (setClient c s)
                   (CallCreateLogGroup (logGroupName c)) in
        match e with
        | Some _ =>
            Returned (None, Wrap e "cloudwatchlog.Client.CreateLogGroup") c
        | None => getOrCreateLogStream fuel c
        end
      else
        Returned (None, Wrap e "cloudwatchlogs.Client.DescribeLogStreams") c
  end.
Proof. reflexivity. Qed.

(** The bootstrap issues no [PutLogEvents] and leaves the queue alone. *)
Lemma getOrCreateLogStream_quiet fuel :
  forall c,
    let c' := state_of (getOrCreateLogStream fuel c) in
    queue c' = queue c /\ putBatches (calls c') = putBatches (calls c).
Proof.
  induction fuel as [|fuel IH]; intros c; simpl; [split; reflexivity|].
  destruct (DescribeLogStreams _ _) as [[output e] s].
  assert (Hrnf : forall s0, 
    let c0 := logCall (setClient c s0)
                (CallDescribeLogStreams
                   {| dlsLogGroupName := logGroupName c;
                      dlsLogStreamNamePrefix := logStreamName c |}) in
    let c' := state_of
      (if As_rnf_opt e
       then
         let '(e0, s1) := CreateLogGroup (client c0) (logGroupName c0) in
         let c1 := logCall (setClient c0 s1)
                     (CallCreateLogGroup (logGroupName c0)) in
         match e0 with
         | Some _ =>
             Returned (None, Wrap e0 "cloudwatchlog.Client.CreateLogGroup") c1
         | None => getOrCreateLogStream fuel c1
         end
       else
         Returned (None, Wrap e "cloudwatchlogs.Client.DescribeLogStreams") c0)
    in queue c' = queue c /\ putBatches (calls c') = putBatches (calls c)).
  { intros s0 c0. destruct (As_rnf_opt e).
    - destruct (CreateLogGroup _ _) as [e0 s1]. destruct e0 as [e0|]; simpl.
      + rewrite !putBatches_app, !app_nil_r. split; reflexivity.
      + match goal with |- context [getOrCreateLogStream fuel ?c1] =>
          destruct (IH c1) as [Hq Hp] end.
        simpl in Hq, Hp. rewrite Hq, Hp.
        rewrite !putBatches_app, !app_nil_r. split; reflexivity.
    - simpl. rewrite putBatches_app, app_nil_r. split; reflexivity. }
  destruct e as [e|].
  - apply Hrnf.
  - destruct output as [out|]; [|apply Hrnf].
    destruct (LogStreams out) as [|first rest]; simpl.
    + destruct (CreateLogStream _ _ _) as [e0 s1].
      destruct e0; simpl; rewrite !putBatches_app, !app_nil_r;
        split; reflexivity.
    + rewrite putBatches_app, app_nil_r. split; reflexivity.
Qed.

(** What [NewWithClient] hands over when it succeeds. *)
Lemma NewWithClient_writer fuel cl interval group stream w w' :
  NewWithClient fuel cl interval group stream = Returned (Some w, None) w' ->
  w' = w /\ queue w = [] /\ putBatches (calls w) = [] /\
  minBatchInterval <= interval.
Proof.
  unfold NewWithClient, SetBatchInterval.
  destruct (interval <? minBatchInterval) eqn:Hlt; [discriminate|].
  apply Z.ltb_ge in Hlt.
  match goal with |- context [getOrCreateLogStream fuel ?c0] =>
    pose proof (getOrCreateLogStream_quiet fuel c0) as Hquiet;
    destruct (getOrCreateLogStream fuel c0) as [[ls e] c1|c1|c1]
  end; try discriminate.
  simpl in Hquiet. destruct Hquiet as [Hq Hp].
  destruct ls as [ls|], e as [e|]; try discriminate.
  intros Heq. injection Heq as Hw Hw'. subst w w'. simpl.
  split; [reflexivity|]. split; [exact Hq|]. split; [exact Hp | exact Hlt].
Qed.

(** ** The idle writer *)

Lemma after_sendBatch_nil c m k :
  batch m = [] -> after_sendBatch c m k = k c.
Proof.
  intros Hnil. unfold after_sendBatch. rewrite Hnil, sendBatch_nil. reflexivity.
Qed.

Lemma idle_step (sys : System St) ev :
  queue (writer sys) = [] ->
  batch (monitor sys) = [] ->
  is_write ev = false ->
  queue (writer (step sys ev)) = [] /\
  batch (monitor (step sys ev)) = [] /\
  calls (writer (step sys ev)) = calls (writer sys).
Proof.
  intros Hq Hb Hev. destruct sys as [c m]. simpl in Hq, Hb.
  destruct ev as [log now|interval| |now|log now| ]; simpl.
  - discriminate.
  - unfold SetBatchInterval. destruct (_ <? _); simpl; repeat split; assumption.
  - repeat split; assumption.
  - unfold queueMonitor_step.
    destruct (at_pc m); simpl.
    + repeat split; auto.
    + destruct (now >? nextSendTime m).
      * rewrite after_sendBatch_nil by exact Hb. simpl. repeat split; auto.
      * simpl. repeat split; auto.
    + unfold Dequeue. rewrite Hq. simpl. repeat split; auto.
    + destruct (isClosing c).
      * rewrite after_sendBatch_nil by exact Hb. simpl. repeat split; auto.
      * simpl. repeat split; auto.
    + repeat split; auto.
    + repeat split; auto.
  - discriminate.
  - discriminate.
Qed.

Lemma idle_run evs :
  forall (sys : System St),
    queue (writer sys) = [] ->
    batch (monitor sys) = [] ->
    forallb (fun ev => negb (is_write ev)) evs = true ->
    calls (writer (run sys evs)) = calls (writer sys).
Proof.
  induction evs as [|ev evs IH]; intros sys Hq Hb Hevs; simpl; [reflexivity|].
  simpl in Hevs. apply andb_true_iff in Hevs. destruct Hevs as [Hev Hevs].
  apply negb_true_iff in Hev.
  destruct (@idle_step sys ev Hq Hb Hev) as [Hq' [Hb' Hcalls]].
  rewrite (IH _ Hq' Hb' Hevs). exact Hcalls.
Qed.

(** C9. [sendBatch] on an empty batch, or with [retryNum] above 1, returns
    at once with the writer as it was: no remote call, no change of the
    token or of the error slot.  And a writer that [NewWithClient] returned
    and on which no [Write] occurs makes no remote call at all after the
    bootstrap, under any schedule of the other actions; its call log holds
    no [PutLogEvents]. *)
Theorem sendBatch_noop_and_idle_writer :
  (forall c batch retryNum,
      batch = [] \/ 1 < retryNum ->
      sendBatch c batch retryNum = Returned tt c) /\
  (forall fuel cl interval group stream w w' evs,
      NewWithClient fuel cl interval group stream = Returned (Some w, None) w' ->
      forallb (fun ev => negb (is_write ev)) evs = true ->
      calls (writer (run (spawn w) evs)) = calls w /\
      putBatches (calls (writer (run (spawn w) evs))) = []).
Proof.
  split.
  - intros c batch retryNum [->|Hr].
    + apply sendBatch_nil.
    + unfold sendBatch. rewrite sendBatch_fuel_unfold.
      replace (retryNum >? 1) with true; [reflexivity|].
      symmetry. rewrite Z.gtb_ltb. apply Z.ltb_lt. exact Hr.
  - intros fuel cl interval group stream w w' evs Hnew Hevs.
    destruct (NewWithClient_writer _ _ _ _ _ Hnew) as [_ [Hq [Hputs _]]].
    assert (Hcalls : calls (writer (run (spawn w) evs)) = calls w).
    { apply (@idle_run evs (spawn w)); [exact Hq | reflexivity | exact Hevs]. }
    split; [exact Hcalls | rewrite Hcalls; exact Hputs].
Qed.

(** ** The bootstrap against a misbehaving client *)

(** C10, as the code has it.  When [DescribeLogStreams] answers with a nil
    output and a nil error, [getOrCreateLogStream] returns a nil stream
    with a nil error ([errors.Wrap] of nil is nil), and [NewWithClient]
    panics on line 81. *)
Theorem nil_output_nil_error_panics :
  forall fuel (c : CloudWatchWriter St) s1,
    DescribeLogStreams (client c)
      {| dlsLogGroupName := logGroupName c;
         dlsLogStreamNamePrefix := logStreamName c |} = (None, None, s1) ->
    getOrCreateLogStream (S fuel) c =
      Returned (None, None)
        (logCall (setClient c s1)
           (CallDescribeLogStreams
              {| dlsLogGroupName := logGroupName c;
                 dlsLogStreamNamePrefix := logStreamName c |})) /\
    forall interval,
      minBatchInterval <= interval ->
      exists w,
        NewWithClient (S fuel) (client c) interval
          (logGroupName c) (logStreamName c) = Panicked w.
Proof.
  intros fuel c s1 Hdescribe. split.
  - simpl. rewrite Hdescribe. reflexivity.
  - intros interval Hok. unfold NewWithClient, SetBatchInterval.
    replace (interval <? minBatchInterval) with false
      by (symmetry; apply Z.ltb_ge; exact Hok).
    simpl. rewrite Hdescribe. simpl. eexists. reflexivity.
Qed.

(** C6, as the code has it.  When the first query fails because the log
    group does not exist and the group is then created, the query is made
    again; if this second query does not report a missing group, the
    function returns, after exactly two queries.  (Nothing in the code
    bounds the number of rounds when the client keeps reporting a missing
    group.) *)
Theorem getOrCreateLogStream_one_retry :
  forall (c : CloudWatchWriter St) out1 e1 s1 s2 out2 e2 s3,
    DescribeLogStreams (client c)
      {| dlsLogGroupName := logGroupName c;
         dlsLogStreamNamePrefix := logStreamName c |} = (out1, Some e1, s1) ->
    As_rnf e1 = true ->
    CreateLogGroup s1 (logGroupName c) = (None, s2) ->
    DescribeLogStreams s2
      {| dlsLogGroupName := logGroupName c;
         dlsLogStreamNamePrefix := logStreamName c |} = (out2, e2, s3) ->
    As_rnf_opt e2 = false ->
    exists r w,
      (forall fuel, getOrCreateLogStream (S (S fuel)) c = Returned r w) /\
      describeCount (calls w) = (describeCount (calls c) + 2)%nat.
Proof.
  intros c out1 e1 s1 s2 out2 e2 s3 Hd1 Hrnf Hcreate Hd2 Hnot.
  set (input := {| dlsLogGroupName := logGroupName c;
                   dlsLogStreamNamePrefix := logStreamName c |}) in *.
  set (c2 := logCall
               (setClient (logCall (setClient c s1)
                             (CallDescribeLogStreams input)) s2)
               (CallCreateLogGroup (logGroupName c))).
  assert (Hhead : forall fuel,
            getOrCreateLogStream (S (S fuel)) c =
            getOrCreateLogStream (S fuel) c2).
  { intros fuel. rewrite (getOrCreateLogStream_S (S fuel) c).
    cbv zeta. fold input. rewrite Hd1.
    unfold As_rnf_opt. rewrite Hrnf.
    writer_fields. rewrite Hcreate. reflexivity. }
  assert (Hsecond : forall fuel,
            getOrCreateLogStream (S fuel) c2 =
            let c3 := logCall (setClient c2 s3) (CallDescribeLogStreams input) in
            match e2, out2 with
            | None, Some out =>
                match LogStreams out with
                | first :: _ => Returned (Some first, None) c3
                | [] =>
                    let '(e, s) :=
                      CreateLogStream s3 (logGroupName c) (logStreamName c) in
                    let c4 := logCall (setClient c3 s)
                                (CallCreateLogStream (logGroupName c)
                                                     (logStreamName c)) in
                    match e with
                    | Some _ =>
                        Returned
                          (None, Wrap e "cloudwatchlogs.Client.CreateLogStream")
                          c4
                    | None =>
                        Returned (Some {| UploadSequenceToken := None |}, None) c4
                    end
                end
            | _, _ =>
                Returned
                  (None, Wrap e2 "cloudwatchlogs.Client.DescribeLogStreams") c3
            end).
  { intros fuel. rewrite (getOrCreateLogStream_S fuel c2).
    cbv zeta. unfold c2 at 1 2 3. writer_fields. fold input. fold c2.
    rewrite Hd2. rewrite Hnot.
    destruct e2, out2; reflexivity. }
  assert (Hc3 : forall tail,
            describeCount tail = O ->
            describeCount
              (calls (logCall (setClient c2 s3) (CallDescribeLogStreams input))
               ++ tail)
            = (describeCount (calls c) + 2)%nat).
  { intros tail Htail. unfold c2. writer_fields.
    rewrite !describeCount_app, Htail. simpl. lia. }
  assert (Hc3' :
            describeCount
              (calls (logCall (setClient c2 s3) (CallDescribeLogStreams input)))
            = (describeCount (calls c) + 2)%nat).
  { rewrite <- (Hc3 []) by reflexivity. rewrite app_nil_r. reflexivity. }
  destruct e2 as [e2|].
  - eexists. eexists. split.
    + intros fuel. rewrite Hhead, Hsecond. cbv beta iota zeta. reflexivity.
    + exact Hc3'.
  - destruct out2 as [out2|].
    + destruct (LogStreams out2) as [|first rest] eqn:Hstreams.
      * destruct (CreateLogStream s3 (logGroupName c) (logStreamName c))
          as [e3 s4] eqn:Hcs.
        destruct e3 as [e3|].
        -- eexists. eexists. split.
           ++ intros fuel. rewrite Hhead, Hsecond. cbv beta iota zeta.
              rewrite ?Hstreams, ?Hcs. reflexivity.
           ++ unfold logCall at 1. cbn [calls setClient]. apply Hc3. reflexivity.
        -- eexists. eexists. split.
           ++ intros fuel. rewrite Hhead, Hsecond. cbv beta iota zeta.
              rewrite ?Hstreams, ?Hcs. reflexivity.
           ++ unfold logCall at 1. cbn [calls setClient]. apply Hc3. reflexivity.
      * eexists. eexists. split.
        -- intros fuel. rewrite Hhead, Hsecond. cbv beta iota zeta.
           rewrite ?Hstreams. reflexivity.
        -- exact Hc3'.
    + eexists. eexists. split.
      * intros fuel. rewrite Hhead, Hsecond. cbv beta iota zeta. reflexivity.
      * exact Hc3'.
Qed.

(** ** After the monitor has returned *)

Lemma exited_step (sys : System St) ev :
  at_pc (monitor sys) = PcExited ->
  monitor (step sys ev) = monitor sys /\
  calls (writer (step sys ev)) = calls (writer sys) /\
  (exists more, queue (writer (step sys ev)) = queue (writer sys) ++ more) /\
  (closing (writer sys) = true -> closing (writer (step sys ev)) = true) /\
  done (writer (step sys ev)) = done (writer sys).
Proof.
  intros Hpc. destruct sys as [c m]. simpl in Hpc.
  destruct ev as [log now|interval| |now|log now| ]; simpl.
  - rewrite Write_calls. unfold Write, getErr. simpl.
    destruct (err c); simpl; repeat split; eauto.
  - unfold SetBatchInterval. destruct (_ <? _); simpl; repeat split; auto;
      exists []; symmetry; apply app_nil_r.
  - repeat split; auto. exists []; symmetry; apply app_nil_r.
  - unfold queueMonitor_step. rewrite Hpc. simpl. repeat split; auto.
    exists []; symmetry; apply app_nil_r.
  - repeat split; eauto.
  - repeat split; auto. exists []; symmetry; apply app_nil_r.
Qed.

Lemma exited_run evs :
  forall (sys : System St),
    at_pc (monitor sys) = PcExited ->
    at_pc (monitor (run sys evs)) = PcExited /\
    calls (writer (run sys evs)) = calls (writer sys) /\
    (exists more, queue (writer (run sys evs)) = queue (writer sys) ++ more) /\
    (closing (writer sys) = true -> closing (writer (run sys evs)) = true) /\
    done (writer (run sys evs)) = done (writer sys).
Proof.
  induction evs as [|ev evs IH]; intros sys Hpc; simpl.
  - repeat split; auto. exists []; symmetry; apply app_nil_r.
  - destruct (@exited_step sys ev Hpc) as [Hm [Hcalls [[more Hq] [Hcl Hdone]]]].
    assert (Hpc' : at_pc (monitor (step sys ev)) = PcExited)
      by (rewrite Hm; exact Hpc).
    destruct (IH _ Hpc') as [Hpc2 [Hcalls2 [[more2 Hq2] [Hcl2 Hdone2]]]].
    split; [exact Hpc2|]. split; [rewrite Hcalls2; exact Hcalls|].
    split; [exists (more ++ more2); rewrite Hq2, Hq, app_assoc; reflexivity|].
    split; [intros Hc; apply Hcl2, Hcl, Hc | rewrite Hdone2; exact Hdone].
Qed.

End Properties.

(** * Concrete runs *)

Lemma len_bytes n : len (bytes n) = Z.of_nat n.
Proof.
  unfold len. f_equal. induction n as [|n IH]; simpl; [reflexivity|].
  rewrite IH. reflexivity.
Qed.

Lemma len_oversize : len oversize = 1048551.
Proof. unfold oversize. rewrite len_bytes. apply Z2Nat.id. lia. Qed.

(** An event over the limit on its own, dequeued into an empty batch,
    becomes the batch: line 196 flushes nothing and line 202 appends. *)
Lemma dequeue_oversize {St : Type} `{CloudWatchLogsClient St}
    (c : CloudWatchWriter St) next now item rest msg :
  queue c = item :: rest ->
  Message item = Some msg ->
  batchSizeLimit < len msg + additionalBytesPerLogEvent ->
  queueMonitor_step c
    {| at_pc := PcDequeue; batch := []; batchSize := 0;
       nextSendTime := next |} now =
  (setQueue c rest,
   {| at_pc := PcLoop; batch := [item];
      batchSize := len msg + additionalBytesPerLogEvent;
      nextSendTime := now + batchInterval c |}).
Proof.
  intros Hqueue Hmsg Hover.
  unfold queueMonitor_step, Dequeue. cbn [at_pc batch batchSize nextSendTime].
  rewrite Hqueue, Hmsg.
  replace (0 + (len msg + additionalBytesPerLogEvent) >? batchSizeLimit)
    with true
    by (symmetry; rewrite Z.gtb_ltb; apply Z.ltb_lt; lia).
  rewrite after_sendBatch_nil by reflexivity.
  rewrite size_and_count_flush_exclusive. reflexivity.
Qed.

Lemma run_app {St : Type} `{CloudWatchLogsClient St} (sys : System St) evs evs' :
  run sys (evs ++ evs') = run (run sys evs) evs'.
Proof. apply fold_left_app. Qed.

Lemma run_one {St : Type} `{CloudWatchLogsClient St} (sys : System St) ev :
  run sys [ev] = step sys ev.
Proof. reflexivity. Qed.

(** One message over the limit on its own is sent as a batch of its own. *)
Lemma single_oversize_write msg :
  batchSizeLimit < len msg + additionalBytesPerLogEvent ->
  putBatches (calls (writer (run (spawn booted) (single_write_schedule msg))))
  = [[event msg 0]].
Proof.
  intros Hover.
  change (single_write_schedule msg)
    with ([EvMonitor 0; EvWrite msg 0; EvMonitor 0] ++ [EvMonitor 0] ++
          [EvClose; EvMonitor 0; EvMonitor 0; EvMonitor 0]).
  rewrite !run_app, run_one.
  change (run (spawn booted) [EvMonitor 0; EvWrite msg 0; EvMonitor 0])
    with {| writer := setQueue booted [event msg 0];
            monitor := {| at_pc := PcDequeue; batch := []; batchSize := 0;
                          nextSendTime := defaultBatchInterval |} |}.
  unfold step at 1. cbn [writer monitor].
  rewrite (@dequeue_oversize _ _ _ _ _ (event msg 0) [] msg);
    [reflexivity | reflexivity | reflexivity | exact Hover].
Qed.

Lemma batchBytes_single msg ms :
  batchBytes [event msg ms] = len msg + additionalBytesPerLogEvent.
Proof. unfold batchBytes, eventSize, event. simpl. ring. Qed.

(** C1, counterexample.  A single [Write] of 1,048,551 bytes, taken up by
    the monitor and flushed when the writer is closed, reaches
    [PutLogEvents] as a batch of 1,048,577 bytes. *)
Lemma oversize_write_breaks_size_bound :
  exists b,
    In b (putBatches
            (calls (writer (run (spawn booted)
                              (single_write_schedule oversize))))) /\
    batchBytes b = 1048577 /\
    batchSizeLimit < batchBytes b.
Proof.
  assert (Hover : batchSizeLimit < len oversize + additionalBytesPerLogEvent).
  { rewrite len_oversize. reflexivity. }
  exists [event oversize 0]. split.
  - rewrite (@single_oversize_write oversize Hover). left. reflexivity.
  - rewrite batchBytes_single, len_oversize. split; reflexivity.
Qed.

(** C8, at 100 ns and at 300 ms. *)
Lemma SetBatchInterval_floor_witness :
  snd (SetBatchInterval booted 100) = booted /\
  batchInterval (snd (SetBatchInterval booted 300000000)) = 300000000.
Proof.
  split.
  - apply (proj1 (proj2 (SetBatchInterval_floor booted 100))). reflexivity.
  - apply (proj2 (proj2 (SetBatchInterval_floor booted 300000000))).
    discriminate.
Defined.

(** C3, against a service that answers two ordering conflicts in a row. *)
Lemma sendBatch_retries_conflict_once_witness :
  let final := state_of (sendBatch (fresh conflict_twice) [event "a" 0] 0) in
  putBatches (calls final) = [[event "a" 0]; [event "a" 0]] /\
  nextSequenceToken final = Some "T2"%string /\
  err final = None.
Proof.
  pose proof (@sendBatch_retries_conflict_once Script ScriptClient
                (fresh conflict_twice) [event "a" 0] None
                (withMessage (InvalidSequenceTokenException (Some "T1"%string))
                   "operation error PutLogEvents")
                {| onDescribe := []; onCreateLogGroup := [];
                   onCreateLogStream := []; onPut := [conflict "T2"] |}
                (Some "T1"%string)
                ltac:(discriminate) eq_refl eq_refl) as Hretry.
  cbv zeta in Hretry. destruct Hretry as [Hcalls [_ Hsecond]].
  cbv zeta. split.
  - rewrite Hcalls. reflexivity.
  - destruct (Hsecond None (InvalidSequenceTokenException (Some "T2"%string))
                healthy (Some "T2"%string) eq_refl eq_refl)
      as [_ [Htoken [Herr _]]].
    split; [exact Htoken | exact Herr].
Defined.

(** C7, against a throttling service. *)
Lemma sendBatch_failure_drops_batch_witness :
  exists c',
    sendBatch (fresh throttled) [event "a" 0] 0 = Returned tt c' /\
    err c' = Some (OtherError "ThrottlingException") /\
    nextSequenceToken c' = None /\
    queue c' = [].
Proof.
  destruct (@sendBatch_failure_drops_batch Script ScriptClient
              (fresh throttled) [event "a" 0] 0 None
              (OtherError "ThrottlingException") healthy
              ltac:(discriminate) ltac:(discriminate) eq_refl eq_refl)
    as [[c' [Hsend [Herr [Htoken [Hqueue _]]]]] _].
  exists c'. split; [exact Hsend|]. split; [exact Herr|].
  split; [exact Htoken | exact Hqueue].
Defined.

(** C2, one second past a deadline of 5 s: the deadline stays at 5 s. *)
Lemma timer_flush_keeps_deadline_witness :
  nextSendTime (snd (queueMonitor_step booted monitor_waiting 6000000000))
  = 5000000000.
Proof.
  apply (proj1 (@timer_flush_keeps_deadline Script ScriptClient
                  booted monitor_waiting 6000000000 eq_refl eq_refl)).
Defined.

(** C9, on the writer booted against the healthy service. *)
Lemma sendBatch_noop_and_idle_writer_witness :
  sendBatch booted [] 0 = Returned tt booted /\
  sendBatch booted [event "a" 0] 2 = Returned tt booted /\
  putBatches
    (calls (writer (run (spawn booted)
                      [EvMonitor 0; EvMonitor 6000000000; EvMonitor 6000000001;
                       EvClose; EvMonitor 6000000002; EvMonitor 6000000003;
                       EvMonitor 6000000004]))) = [].
Proof.
  destruct (@sendBatch_noop_and_idle_writer Script ScriptClient)
    as [Hnoop Hidle].
  split; [apply Hnoop; left; reflexivity|].
  split; [apply Hnoop; right; reflexivity|].
  apply (Hidle 1%nat healthy defaultBatchInterval "group"%string
           "stream"%string booted booted); reflexivity.
Defined.

(** C10, against a client whose [DescribeLogStreams] gives nil and nil. *)
Lemma nil_output_nil_error_panics_witness :
  exists w,
    NewWithClient 1 nil_describe defaultBatchInterval "group" "stream"
    = Panicked w.
Proof.
  apply (proj2 (@nil_output_nil_error_panics Script ScriptClient O
                  (fresh nil_describe) healthy eq_refl)
           defaultBatchInterval).
  discriminate.
Defined.

(** C6, against a service that reports the group missing once. *)
Lemma getOrCreateLogStream_one_retry_witness :
  exists r w,
    (forall fuel,
        getOrCreateLogStream (S (S fuel)) (fresh missing_once) = Returned r w) /\
    describeCount (calls w) = 2%nat.
Proof.
  apply (@getOrCreateLogStream_one_retry Script ScriptClient
           (fresh missing_once) None
           (ResourceNotFoundException "no such log group") healthy healthy
           (Some {| LogStreams := [] |}) None healthy
           eq_refl eq_refl eq_refl eq_refl eq_refl).
Defined.

(** Against [AlwaysMissingClient] the bootstrap uses up any fuel. *)
Lemma always_missing_out_of_fuel fuel :
  forall c : CloudWatchWriter AlwaysMissing,
  exists w, getOrCreateLogStream fuel c = OutOfFuel w.
Proof.
  induction fuel as [|fuel IH]; intros c.
  - exists c. reflexivity.
  - rewrite getOrCreateLogStream_S. cbn. apply IH.
Qed.

(** C6, counterexample.  A service that reports the group missing twice
    is queried three times; and against a client that reports it missing
    on every query, and creates it with success every time, the function
    never returns. *)
Lemma bootstrap_retries_unbounded :
  (returned (getOrCreateLogStream 3 (fresh missing_twice)) = true /\
   describeCount
     (calls (state_of (getOrCreateLogStream 3 (fresh missing_twice)))) = 3%nat) /\
  ~ (exists fuel,
        returned (getOrCreateLogStream fuel (fresh always_missing)) = true).
Proof.
  split.
  - split; reflexivity.
  - intros [fuel Hret].
    destruct (always_missing_out_of_fuel fuel (fresh always_missing))
      as [w' Hout].
    rewrite Hout in Hret. discriminate.
Qed.

(** C4, as the code has it.  [booted] is the writer [NewWithClient]
    returns.  Under [race_schedule] a producer's [Write] and [Close] fall
    between the monitor's [Dequeue] and its [isClosing]: [Close] returns,
    and the event written before it stays in the queue and is in no batch
    sent, then or at any later time. *)
Theorem close_loses_racing_write :
  forall later : list Event,
    let sys := run (spawn booted) (race_schedule ++ later) in
    NewWithClient 1 healthy defaultBatchInterval "group" "stream"
      = Returned (Some booted, None) booted /\
    Close_returned sys = true /\
    In (event "lost" 3) (queue (writer sys)) /\
    putBatches (calls (writer sys)) = [] /\
    at_pc (monitor sys) = PcExited.
Proof.
  intros later sys. subst sys. rewrite run_app.
  assert (Hexit : at_pc (monitor (run (spawn booted) race_schedule)) = PcExited)
    by reflexivity.
  destruct (exited_run later _ Hexit)
    as [Hpc [Hcalls [[more Hqueue] [Hclosing Hdone]]]].
  split; [reflexivity|].
  split.
  - unfold Close_returned. rewrite Hdone, Hclosing by reflexivity. reflexivity.
  - split; [rewrite Hqueue; left; reflexivity|].
    split; [rewrite Hcalls; reflexivity | exact Hpc].
Qed.

(** * Further properties of the writer *)

Section Further.

Context {St : Type} `{CloudWatchLogsClient St}.

Implicit Types (c : CloudWatchWriter St) (m : Monitor)
  (batch : list InputLogEvent).

(** ** sendBatch: the attempts it makes *)

Lemma sendBatch_fuel_attempts fuel :
  forall c batch retryNum,
  exists inputs,
    calls (state_of (sendBatch_fuel fuel c batch retryNum))
      = calls c ++ map CallPutLogEvents inputs /\
    (List.length inputs <= fuel)%nat /\
    Forall (fun i => LogEvents i = batch /\
                     LogGroupName i = logGroupName c /\
                     LogStreamName i = logStreamName c) inputs /\
    (inputs = [] ->
       sendBatch_fuel fuel c batch retryNum = Returned tt c \/ fuel = O) /\
    ((retryNum >? 1) || (Z.of_nat (List.length batch) =? 0) = true ->
       inputs = []).
Proof.
  induction fuel as [|fuel IH]; intros c batch retryNum;
    rewrite sendBatch_fuel_unfold.
  - exists []. simpl. rewrite app_nil_r.
    destruct (_ || _); repeat split; auto.
  - destruct ((retryNum >? 1) || _) eqn:Hguard.
    + exists []. simpl. rewrite app_nil_r. repeat split; auto. lia.
    + cbv zeta.
      destruct (PutLogEvents _ _) as [[output e] s].
      set (input := {| LogEvents := batch; LogGroupName := logGroupName c;
                       LogStreamName := logStreamName c;
                       SequenceToken := getNextSequenceToken c |}).
      assert (Hone : forall c1 : CloudWatchWriter St,
                 calls c1 = calls c ++ [CallPutLogEvents input] ->
                 exists inputs,
                   calls c1 = calls c ++ map CallPutLogEvents inputs /\
                   (List.length inputs <= S fuel)%nat /\
                   Forall (fun i => LogEvents i = batch /\
                                    LogGroupName i = logGroupName c /\
                                    LogStreamName i = logStreamName c) inputs /\
                   (inputs = [] -> False) /\ (false = true -> inputs = [])).
      { intros c1 Hc1. exists [input]. split; [exact Hc1|].
        split; [simpl; lia|]. split; [|split; discriminate].
        constructor; [repeat split | constructor]. }
      assert (Hweaken : forall (o : outcome (CloudWatchWriter St) unit),
                 (exists inputs,
                   calls (state_of o) = calls c ++ map CallPutLogEvents inputs /\
                   (List.length inputs <= S fuel)%nat /\
                   Forall (fun i => LogEvents i = batch /\
                                    LogGroupName i = logGroupName c /\
                                    LogStreamName i = logStreamName c) inputs /\
                   (inputs = [] -> False) /\ (false = true -> inputs = [])) ->
                 exists inputs,
                   calls (state_of o) = calls c ++ map CallPutLogEvents inputs /\
                   (List.length inputs <= S fuel)%nat /\
                   Forall (fun i => LogEvents i = batch /\
                                    LogGroupName i = logGroupName c /\
                                    LogStreamName i = logStreamName c) inputs /\
                   (inputs = [] -> o = Returned tt c \/ S fuel = O) /\
                   (false = true -> inputs = [])).
      { intros o [inputs [H1 [H2 [H3 [H4 H5]]]]]. exists inputs.
        repeat split; auto. intros Hnil. destruct (H4 Hnil). }
      destruct e as [e'|].
      * destruct (As_ist e') as [expected|].
        -- apply Hweaken.
           destruct (IH (setNextSequenceToken
                           (logCall (setClient c s) (CallPutLogEvents input))
                           expected) batch (retryNum + 1))
             as [inputs [Hcalls [Hlen [Hall _]]]].
           exists (input :: inputs). split.
           ++ rewrite Hcalls. simpl. rewrite <- app_assoc. reflexivity.
           ++ split; [simpl; lia|]. split; [|split; discriminate].
              constructor; [repeat split | exact Hall].
        -- apply Hweaken, Hone. reflexivity.
      * destruct output; apply Hweaken, Hone; reflexivity.
Qed.

(** X1. [sendBatch] always ends, after at most [2 - retryNum] calls of
    [PutLogEvents] (two for the monitor's [retryNum = 0]), each on the
    given batch and on the writer's group and stream; it makes no call
    exactly when the batch is empty or [retryNum] is above 1. *)
Theorem sendBatch_attempts_bounded :
  forall c batch retryNum,
  exists inputs,
    calls (state_of (sendBatch c batch retryNum))
      = calls c ++ map CallPutLogEvents inputs /\
    (List.length inputs <= Z.to_nat (2 - retryNum))%nat /\
    Forall (fun i => LogEvents i = batch /\
                     LogGroupName i = logGroupName c /\
                     LogStreamName i = logStreamName c) inputs /\
    (inputs = [] <-> batch = [] \/ 1 < retryNum) /\
    forall w, sendBatch c batch retryNum <> OutOfFuel w.
Proof.
  intros c batch retryNum. unfold sendBatch.
  destruct (sendBatch_fuel_attempts (Z.to_nat (2 - retryNum)) c batch retryNum)
    as [inputs [Hcalls [Hlen [Hall [Hnil Hguard]]]]].
  exists inputs. split; [exact Hcalls|]. split; [exact Hlen|].
  split; [exact Hall|]. split.
  - split.
    + intros Hin. destruct (Hnil Hin) as [Hret|Hfuel].
      * destruct (Z_lt_le_dec 1 retryNum) as [Hr|Hr]; [right; exact Hr|].
        destruct batch as [|e rest]; [left; reflexivity|].
        exfalso.
        assert (Hne : e :: rest <> []) by discriminate.
        rewrite sendBatch_fuel_unfold, (guard_open Hne Hr) in Hret.
        destruct (Z.to_nat (2 - retryNum)) as [|fuel] eqn:Hfuel; [lia|].
        cbv zeta in Hret. subst inputs.
        destruct (PutLogEvents _ _) as [[output e0] s].
        assert (Hgrow : forall o : outcome (CloudWatchWriter St) unit,
                   o = Returned tt c ->
                   (List.length (calls c) < List.length (calls (state_of o)))%nat
                   -> False).
        { intros o -> Hlt. simpl in Hlt. lia. }
        destruct e0 as [e0|].
        -- destruct (As_ist e0) as [expected|].
           ++ eapply Hgrow; [exact Hret|].
              match goal with |- context [sendBatch_fuel fuel ?c1 ?b ?r] =>
                destruct (sendBatch_fuel_attempts fuel c1 b r)
                  as [more [Hmore _]]
              end.
              rewrite Hmore. simpl. rewrite !length_app. simpl. lia.
           ++ eapply Hgrow; [exact Hret|]. simpl. rewrite length_app. simpl. lia.
        -- destruct output.
           ++ eapply Hgrow; [exact Hret|]. simpl. rewrite length_app. simpl. lia.
           ++ discriminate.
      * right. lia.
    + intros Hor. apply Hguard. apply orb_true_iff.
      destruct Hor as [->|Hr]; [right; reflexivity|left].
      rewrite Z.gtb_ltb. apply Z.ltb_lt. exact Hr.
  - apply sendBatch_fuel_enough. lia.
Qed.

Lemma putBatches_map_put (inputs : list PutLogEventsInput) :
  putBatches (map CallPutLogEvents inputs) = map LogEvents inputs.
Proof.
  induction inputs as [|i inputs IH]; simpl; [reflexivity | rewrite IH; reflexivity].
Qed.

(** A flush with [retryNum = 0]: nothing for an empty batch, else one or
    two attempts on the batch. *)
Lemma sendBatch_flush c batch :
  (batch = [] /\ sendBatch c batch 0 = Returned tt c) \/
  (batch <> [] /\
   exists new,
     calls (state_of (sendBatch c batch 0)) = calls c ++ new /\
     new <> [] /\
     (putBatches new = [batch] \/ putBatches new = [batch; batch])).
Proof.
  destruct batch as [|e rest]; [left; split; [reflexivity | apply sendBatch_nil]|].
  right. split; [discriminate|].
  destruct (sendBatch_attempts_bounded c (e :: rest) 0)
    as [inputs [Hcalls [Hlen [Hall [Hnil _]]]]].
  exists (map CallPutLogEvents inputs). split; [exact Hcalls|].
  rewrite putBatches_map_put.
  change (Z.to_nat (2 - 0)) with 2%nat in Hlen.
  destruct inputs as [|i1 [|i2 [|i3 inputs]]].
  - exfalso. destruct (proj1 Hnil eq_refl) as [Hempty|Hr]; [discriminate | lia].
  - split; [discriminate|]. left. simpl.
    inversion Hall as [|? ? [H1 _] _]; subst. rewrite H1. reflexivity.
  - split; [discriminate|]. right. simpl.
    inversion Hall as [|? ? [H1 _] Hrest]; subst.
    inversion Hrest as [|? ? [H2 _] _]; subst.
    rewrite H1, H2. reflexivity.
  - simpl in Hlen. lia.
Qed.

(** The flush rule of the monitor, with the attempts counted. *)
Lemma after_sendBatch_counted c m k
    (Q : CloudWatchWriter St * Monitor -> Prop) :
  (batch m = [] -> Q (k c)) ->
  (forall c' new,
      batch m <> [] ->
      sendBatch c (batch m) 0 = Returned tt c' ->
      sendBatch_footprint (batch m) c c' ->
      calls c' = calls c ++ new -> new <> [] ->
      putBatches new = [batch m] \/ putBatches new = [batch m; batch m] ->
      Q (k c')) ->
  (forall c' new,
      batch m <> [] ->
      sendBatch_footprint (batch m) c c' ->
      calls c' = calls c ++ new -> new <> [] ->
      putBatches new = [batch m] \/ putBatches new = [batch m; batch m] ->
      Q (c', crashed m)) ->
  Q (after_sendBatch c m k).
Proof.
  intros Hnil Hret Hcrash.
  destruct (sendBatch_flush c (batch m)) as [[Hempty Hnoop]|[Hne [new [Hcalls [Hnew Hputs]]]]].
  - unfold after_sendBatch. rewrite Hnoop. apply Hnil. exact Hempty.
  - pose proof (sendBatch_footprint_holds c (batch m) 0) as Hfp.
    unfold after_sendBatch.
    destruct (sendBatch c (batch m) 0) as [[] c'|c'|c'] eqn:Hsend;
      simpl in Hfp, Hcalls.
    + exact (Hret c' new Hne eq_refl Hfp Hcalls Hnew Hputs).
    + exact (Hcrash c' new Hne Hfp Hcalls Hnew Hputs).
    + exact (Hcrash c' new Hne Hfp Hcalls Hnew Hputs).
Qed.

(** ** sendBatch: the successful attempt *)

(** X2. When [PutLogEvents] succeeds on a non-empty batch, [sendBatch]
    returns after that one call with the token of the answer stored, and
    with the error slot and the queue as they were: a success does not
    clear an error that no [Write] has reported yet. *)
Theorem sendBatch_success_stores_token :
  forall c batch retryNum out s,
    batch <> [] ->
    retryNum <= 1 ->
    PutLogEvents (client c)
      {| LogEvents := batch; LogGroupName := logGroupName c;
         LogStreamName := logStreamName c;
         SequenceToken := nextSequenceToken c |} = (Some out, None, s) ->
    exists c',
      sendBatch c batch retryNum = Returned tt c' /\
      nextSequenceToken c' = NextSequenceToken out /\
      err c' = err c /\
      queue c' = queue c /\
      client c' = s /\
      calls c' =
        calls c ++
        [CallPutLogEvents
           {| LogEvents := batch; LogGroupName := logGroupName c;
              LogStreamName := logStreamName c;
              SequenceToken := nextSequenceToken c |}].
Proof.
  intros c batch retryNum out s Hne Hr Hput.
  unfold sendBatch.
  destruct (Z.to_nat (2 - retryNum)) as [|fuel] eqn:Hfuel; [lia|].
  rewrite sendBatch_fuel_unfold, (guard_open Hne Hr).
  cbv zeta. unfold getNextSequenceToken. rewrite Hput.
  eexists. split; [reflexivity|]. simpl. repeat split.
Qed.

(** ** Nothing is lost, repeated or reordered *)

Lemma sent_as_app f1 p1 f2 p2 :
  sent_as f1 p1 -> sent_as f2 p2 -> sent_as (f1 ++ f2) (p1 ++ p2).
Proof.
  intros H1 H2. induction H1; simpl; [exact H2 | |]; constructor; assumption.
Qed.

Lemma sendable_app q q' : sendable (q ++ q') = sendable q ++ sendable q'.
Proof. apply filter_app. Qed.

Lemma written_app evs evs' : written (evs ++ evs') = written evs ++ written evs'.
Proof.
  induction evs as [|ev evs IH]; simpl; [reflexivity|].
  destruct ev; simpl; rewrite ?IH; reflexivity.
Qed.

(** One flush added to the account. *)
Lemma conserved_flush c0 c c' flushed new new' b tail :
  calls c = calls c0 ++ new ->
  sent_as flushed (putBatches new) ->
  calls c' = calls c ++ new' ->
  putBatches new' = [b] \/ putBatches new' = [b; b] ->
  exists flushed' new'',
    calls c' = calls c0 ++ new'' /\
    sent_as flushed' (putBatches new'') /\
    List.concat flushed' ++ tail = List.concat flushed ++ b ++ tail.
Proof.
  intros Hc Hsent Hc' Hputs.
  exists (flushed ++ [b]), (new ++ new'). split.
  - rewrite Hc', Hc, app_assoc. reflexivity.
  - split.
    + rewrite putBatches_app. apply sent_as_app; [exact Hsent|].
      destruct Hputs as [->| ->];
        [apply sent_once, sent_none | apply sent_twice, sent_none].
    + rewrite List.concat_app. simpl. rewrite app_nil_r, <- app_assoc. reflexivity.
Qed.

Lemma pc_eq_crashed_dec m : {at_pc m = PcCrashed} + {at_pc m <> PcCrashed}.
Proof. destruct (at_pc m); (left; reflexivity) || (right; discriminate). Qed.

Lemma conserved_same c0 all c m c' m' :
  conserved c0 all c m ->
  at_pc m <> PcCrashed ->
  calls c' = calls c ->
  pending m' ++ sendable (queue c') = pending m ++ sendable (queue c) ->
  conserved c0 all c' m'.
Proof.
  intros [Hdead|[flushed [new [Hc [Hsent Hall]]]]] Hlive Hcalls Hrest;
    [contradiction|].
  right. exists flushed, new. split; [rewrite Hcalls; exact Hc|].
  split; [exact Hsent|]. rewrite Hrest. exact Hall.
Qed.

Lemma conserved_flushed c0 all c m c' m' new' b :
  conserved c0 all c m ->
  at_pc m <> PcCrashed ->
  calls c' = calls c ++ new' ->
  putBatches new' = [b] \/ putBatches new' = [b; b] ->
  b ++ pending m' ++ sendable (queue c') = pending m ++ sendable (queue c) ->
  conserved c0 all c' m'.
Proof.
  intros [Hdead|[flushed [new [Hc [Hsent Hall]]]]] Hlive Hcalls Hputs Hrest;
    [contradiction|].
  destruct (@conserved_flush c0 c c' flushed new new' b
              (pending m' ++ sendable (queue c'))
              Hc Hsent Hcalls Hputs) as [flushed' [new'' [Hc' [Hsent' Hcat]]]].
  right. exists flushed', new''. split; [exact Hc'|]. split; [exact Hsent'|].
  rewrite Hcat, Hrest. exact Hall.
Qed.

Lemma conserved_monitor_step c0 all c m now :
  conserved c0 all c m ->
  conserved c0 all (fst (queueMonitor_step c m now))
                   (snd (queueMonitor_step c m now)).
Proof.
  intros Hinv.
  destruct (pc_eq_crashed_dec m) as [Hdead|Hlive].
  { unfold queueMonitor_step. rewrite Hdead. simpl. left. exact Hdead. }
  unfold queueMonitor_step.
  destruct (at_pc m) eqn:Hpc.
  - (* PcStart *)
    eapply conserved_same; [exact Hinv | congruence | reflexivity|].
    account Hpc. reflexivity.
  - (* PcLoop *)
    destruct (now >? nextSendTime m).
    + apply after_sendBatch_counted.
      * intros Hnil. eapply conserved_same;
          [exact Hinv | congruence | reflexivity|].
        account Hpc. rewrite Hnil. reflexivity.
      * intros c' new Hne _ Hfp Hcalls _ Hputs.
        eapply conserved_flushed;
          [exact Hinv | congruence | exact Hcalls | exact Hputs|].
        account Hpc. reflexivity.
      * intros c' new _ _ _ _ _. left. reflexivity.
    + eapply conserved_same; [exact Hinv | congruence | reflexivity|].
      account Hpc. reflexivity.
  - (* PcDequeue *)
    unfold Dequeue. destruct (queue c) as [|item rest] eqn:Hqueue.
    + eapply conserved_same; [exact Hinv | congruence | reflexivity|].
      account Hpc. rewrite Hqueue. reflexivity.
    + destruct (Message item) as [msg|] eqn:Hmsg.
      * assert (Hsendable : sendable (item :: rest) = item :: sendable rest).
        { unfold sendable. simpl. rewrite Hmsg. reflexivity. }
        destruct (_ >? batchSizeLimit).
        -- apply after_sendBatch_counted.
           ++ intros Hnil. rewrite size_and_count_flush_exclusive.
              eapply conserved_same;
                [exact Hinv | congruence | reflexivity|].
              account Hpc. rewrite Hnil, Hqueue, Hsendable. reflexivity.
           ++ intros c' new Hne _ Hfp Hcalls _ Hputs.
              rewrite size_and_count_flush_exclusive.
              eapply conserved_flushed;
                [exact Hinv | congruence | exact Hcalls | exact Hputs|].
              account Hpc. rewrite Hqueue, Hsendable. reflexivity.
           ++ intros c' new _ _ _ _ _. left. reflexivity.
        -- unfold append_event, count_check. cbn [batch batchSize nextSendTime].
           destruct (_ >=? maxNumLogEvents).
           ++ apply after_sendBatch_counted.
              ** cbn [batch]. intros Hnil. apply app_eq_nil in Hnil.
                 destruct Hnil as [_ Hnil]. discriminate.
              ** cbn [batch]. intros c' new Hne _ Hfp Hcalls _ Hputs.
                 eapply conserved_flushed;
                   [exact Hinv | congruence | exact Hcalls | exact Hputs|].
                 account Hpc. rewrite Hqueue, Hsendable.
                 rewrite <- app_assoc. reflexivity.
              ** intros c' new _ _ _ _ _. left. reflexivity.
           ++ eapply conserved_same;
                [exact Hinv | congruence | reflexivity|].
              account Hpc. rewrite Hqueue, Hsendable, <- app_assoc. reflexivity.
      * eapply conserved_same; [exact Hinv | congruence | reflexivity|].
        account Hpc. rewrite Hqueue.
        unfold sendable. simpl. rewrite Hmsg. reflexivity.
  - (* PcEmpty *)
    destruct (isClosing c).
    + apply after_sendBatch_counted.
      * intros Hnil. eapply conserved_same;
          [exact Hinv | congruence | reflexivity|].
        account Hpc. rewrite Hnil. reflexivity.
      * intros c' new Hne _ Hfp Hcalls _ Hputs.
        eapply conserved_flushed;
          [exact Hinv | congruence | exact Hcalls | exact Hputs|].
        account Hpc. reflexivity.
      * intros c' new _ _ _ _ _. left. reflexivity.
    + eapply conserved_same; [exact Hinv | congruence | reflexivity|].
      account Hpc. reflexivity.
  - (* PcExited *)
    eapply conserved_same; [exact Hinv | congruence | reflexivity|].
    reflexivity.
  - contradiction.
Qed.

Lemma conserved_step c0 all (sys : System St) ev :
  conserved c0 all (writer sys) (monitor sys) ->
  conserved c0 (all ++ written [ev])
    (writer (step sys ev)) (monitor (step sys ev)).
Proof.
  intros Hinv. destruct ev as [log now|interval| |now|log now| ]; simpl.
  - destruct Hinv as [Hdead|[flushed [new [Hc [Hsent Hall]]]]];
      [left; exact Hdead|].
    right. exists flushed, new. rewrite Write_calls.
    split; [exact Hc|]. split; [exact Hsent|].
    assert (Hq : queue (snd (Write (writer sys) log now))
                 = queue (writer sys)
                   ++ [{| Message := Some log;
                          Timestamp := Some (Z.quot now Millisecond) |}]).
    { unfold Write, getErr. simpl. destruct (err (writer sys)); reflexivity. }
    rewrite Hq, sendable_app, !app_assoc.
    rewrite app_assoc in Hall. rewrite Hall. reflexivity.
  - rewrite app_nil_r.
    destruct Hinv as [Hdead|[flushed [new [Hc [Hsent Hall]]]]];
      [left; exact Hdead|].
    right. exists flushed, new. rewrite SetBatchInterval_calls.
    split; [exact Hc|]. split; [exact Hsent|].
    unfold SetBatchInterval. destruct (_ <? _); exact Hall.
  - rewrite app_nil_r.
    destruct Hinv as [Hdead|[flushed [new [Hc [Hsent Hall]]]]];
      [left; exact Hdead|].
    right. exists flushed, new. split; [exact Hc|]. split; [exact Hsent|].
    exact Hall.
  - rewrite app_nil_r.
    pose proof (@conserved_monitor_step c0 all (writer sys) (monitor sys) now Hinv) as Hstep.
    destruct (queueMonitor_step (writer sys) (monitor sys) now) as [c' m'].
    exact Hstep.
  - destruct Hinv as [Hdead|[flushed [new [Hc [Hsent Hall]]]]];
      [left; exact Hdead|].
    right. exists flushed, new.
    split; [exact Hc|]. split; [exact Hsent|].
    cbn [queue Enqueue setQueue].
    rewrite sendable_app, !app_assoc.
    rewrite app_assoc in Hall. rewrite Hall. reflexivity.
  - rewrite app_nil_r.
    destruct Hinv as [Hdead|[flushed [new [Hc [Hsent Hall]]]]];
      [left; exact Hdead|].
    right. exists flushed, new. split; [exact Hc|]. split; [exact Hsent|].
    exact Hall.
Qed.

Lemma conserved_run c0 evs :
  forall all (sys : System St),
    conserved c0 all (writer sys) (monitor sys) ->
    conserved c0 (all ++ written evs)
      (writer (run sys evs)) (monitor (run sys evs)).
Proof.
  induction evs as [|ev evs IH]; intros all sys Hinv.
  - simpl. rewrite app_nil_r. exact Hinv.
  - change (written (ev :: evs)) with (written ([ev] ++ evs)).
    rewrite written_app, app_assoc.
    change (run sys (ev :: evs)) with (run (step sys ev) evs).
    apply IH. apply conserved_step. exact Hinv.
Qed.

(** X3. Under every schedule, unless the monitor has panicked, the events
    of the batches flushed so far, of the batch the monitor holds and of
    the queue (without nil-message items) are, in this order, the
    initially queued events followed by the written ones; and the call
    log shows each flushed batch once, or twice in a row after an
    ordering conflict.  Nothing is lost, repeated or reordered. *)
Theorem events_conserved_in_order :
  forall (c : CloudWatchWriter St) (evs : list Event),
    let sys := run (spawn c) evs in
    at_pc (monitor sys) = PcCrashed \/
    exists flushed new,
      calls (writer sys) = calls c ++ new /\
      sent_as flushed (putBatches new) /\
      List.concat flushed ++ pending (monitor sys)
        ++ sendable (queue (writer sys))
      = sendable (queue c) ++ written evs.
Proof.
  intros c evs sys. subst sys.
  apply (@conserved_run c evs (sendable (queue c)) (spawn c)).
  right. exists [], []. simpl. rewrite app_nil_r.
  repeat split. constructor.
Qed.

(** ** Closing drains the queue *)

Lemma drain_count_check c0 m0 c m now :
  closing c = true ->
  (2 * List.length (queue c) + 3 <= pred (drain_rank c0 m0))%nat ->
  closing_inv (fst (count_check c m now)) (snd (count_check c m now)) /\
  (drain_rank (fst (count_check c m now)) (snd (count_check c m now))
   <= pred (drain_rank c0 m0))%nat.
Proof.
  intros Hclosing Hrank. unfold count_check.
  destruct (_ >=? _).
  - apply after_sendBatch_rule.
    + intros c' _ Hfp. cbn [fst snd]. split.
      * split; [rewrite (fp_closing Hfp); exact Hclosing|].
        split; cbn [at_pc]; discriminate.
      * unfold drain_rank at 1. cbn [at_pc]. rewrite (fp_queue Hfp). exact Hrank.
    + intros c' Hfp. cbn [fst snd]. split.
      * split; [rewrite (fp_closing Hfp); exact Hclosing|].
        split; cbn [at_pc crashed]; discriminate.
      * unfold drain_rank at 1. cbn [at_pc crashed]. lia.
  - cbn [fst snd]. split.
    + split; [exact Hclosing|]. split; cbn [at_pc]; discriminate.
    + unfold drain_rank at 1. cbn [at_pc]. exact Hrank.
Qed.

Lemma drain_monitor_step c m now :
  closing_inv c m ->
  closing_inv (fst (queueMonitor_step c m now))
              (snd (queueMonitor_step c m now)) /\
  (drain_rank (fst (queueMonitor_step c m now))
              (snd (queueMonitor_step c m now))
   <= pred (drain_rank c m))%nat.
Proof.
  intros [Hclosing [Hempty Hexited]].
  unfold queueMonitor_step.
  destruct (at_pc m) eqn:Hpc.
  - (* PcStart *)
    cbn [fst snd]. split.
    + split; [exact Hclosing|]. split; cbn [at_pc]; discriminate.
    + unfold drain_rank. rewrite Hpc. cbn [at_pc]. lia.
  - (* PcLoop *)
    destruct (now >? nextSendTime m).
    + apply after_sendBatch_rule.
      * intros c' _ Hfp. cbn [fst snd]. split.
        -- split; [rewrite (fp_closing Hfp); exact Hclosing|].
           split; cbn [at_pc]; discriminate.
        -- unfold drain_rank. rewrite Hpc. cbn [at_pc].
           rewrite (fp_queue Hfp). lia.
      * intros c' Hfp. cbn [fst snd]. split.
        -- split; [rewrite (fp_closing Hfp); exact Hclosing|].
           split; cbn [at_pc crashed]; discriminate.
        -- unfold drain_rank. cbn [at_pc crashed]. lia.
    + cbn [fst snd]. split.
      * split; [exact Hclosing|]. split; cbn [at_pc]; discriminate.
      * unfold drain_rank. rewrite Hpc. cbn [at_pc]. lia.
  - (* PcDequeue *)
    unfold Dequeue. destruct (queue c) as [|item rest] eqn:Hqueue.
    + cbn [fst snd]. split.
      * split; [exact Hclosing|]. split; cbn [at_pc].
        -- intros _. exact Hqueue.
        -- discriminate.
      * unfold drain_rank. rewrite Hpc, Hqueue. cbn [at_pc]. simpl. lia.
    + assert (Hrank : (2 * List.length (queue (setQueue c rest)) + 3
                       <= pred (drain_rank c m))%nat).
      { unfold drain_rank. rewrite Hpc, Hqueue. cbn [queue setQueue].
        simpl List.length. lia. }
      destruct (Message item) as [msg|].
      * destruct (_ >? batchSizeLimit).
        -- apply after_sendBatch_rule.
           ++ intros c' _ Hfp. rewrite size_and_count_flush_exclusive.
              cbn [fst snd]. split.
              ** split; [rewrite (fp_closing Hfp); exact Hclosing|].
                 split; cbn [at_pc]; discriminate.
              ** unfold drain_rank at 1. cbn [at_pc].
                 rewrite (fp_queue Hfp). exact Hrank.
           ++ intros c' Hfp. cbn [fst snd]. split.
              ** split; [rewrite (fp_closing Hfp); exact Hclosing|].
                 split; cbn [at_pc crashed]; discriminate.
              ** unfold drain_rank at 1. cbn [at_pc crashed]. lia.
        -- unfold append_event. apply drain_count_check; assumption.
      * cbn [fst snd]. split.
        -- split; [exact Hclosing|]. split; cbn [at_pc]; discriminate.
        -- unfold drain_rank at 1. cbn [at_pc]. exact Hrank.
  - (* PcEmpty *)
    unfold isClosing. rewrite Hclosing.
    apply after_sendBatch_rule.
    + intros c' _ Hfp. cbn [fst snd]. split.
      * split; [cbn [closing closeDone]; rewrite (fp_closing Hfp); exact Hclosing|].
        split; cbn [at_pc]; [discriminate|].
        intros _. cbn [done queue closeDone]. split; [reflexivity|].
        rewrite (fp_queue Hfp). apply Hempty. reflexivity.
      * unfold drain_rank. cbn [at_pc]. lia.
    + intros c' Hfp. cbn [fst snd]. split.
      * split; [rewrite (fp_closing Hfp); exact Hclosing|].
        split; cbn [at_pc crashed]; discriminate.
      * unfold drain_rank. cbn [at_pc crashed]. lia.
  - (* PcExited *)
    cbn [fst snd]. split.
    + split; [exact Hclosing|]. split; rewrite Hpc; [exact Hempty | exact Hexited].
    + unfold drain_rank. rewrite Hpc. lia.
  - (* PcCrashed *)
    cbn [fst snd]. split.
    + split; [exact Hclosing|]. split; rewrite Hpc; [exact Hempty | exact Hexited].
    + unfold drain_rank. rewrite Hpc. lia.
Qed.

Lemma drain_run nows :
  forall (sys : System St),
    closing_inv (writer sys) (monitor sys) ->
    let sys' := run sys (map EvMonitor nows) in
    closing_inv (writer sys') (monitor sys') /\
    (drain_rank (writer sys') (monitor sys')
     <= drain_rank (writer sys) (monitor sys) - List.length nows)%nat.
Proof.
  induction nows as [|now nows IH]; intros sys Hinv; cbn zeta.
  - simpl. split; [exact Hinv | lia].
  - change (run sys (map EvMonitor (now :: nows)))
      with (run (step sys (EvMonitor now)) (map EvMonitor nows)).
    pose proof (@drain_monitor_step (writer sys) (monitor sys) now Hinv) as Hstep.
    assert (Hshape : step sys (EvMonitor now) =
                     {| writer := fst (queueMonitor_step (writer sys)
                                         (monitor sys) now);
                        monitor := snd (queueMonitor_step (writer sys)
                                          (monitor sys) now) |}).
    { simpl. destruct (queueMonitor_step _ _ _). reflexivity. }
    destruct Hstep as [Hinv' Hrank].
    assert (Hinv'' : closing_inv (writer (step sys (EvMonitor now)))
                                 (monitor (step sys (EvMonitor now))))
      by (rewrite Hshape; exact Hinv').
    assert (Hrank' : (drain_rank (writer (step sys (EvMonitor now)))
                                 (monitor (step sys (EvMonitor now)))
                      <= pred (drain_rank (writer sys) (monitor sys)))%nat)
      by (rewrite Hshape; exact Hrank).
    destruct (IH _ Hinv'') as [Hfinal Hle].
    split; [exact Hfinal|].
    simpl List.length. lia.
Qed.

Lemma drain_rank_zero c m : drain_rank c m = O -> ended m = true.
Proof.
  unfold drain_rank, ended. destruct (at_pc m); intros Hr;
    try reflexivity; lia.
Qed.

Lemma drain_ends :
  forall (sys : System St) (nows : list Z),
    closing (writer sys) = true ->
    ended (monitor sys) = false ->
    (at_pc (monitor sys) = PcEmpty -> queue (writer sys) = []) ->
    (2 * List.length (queue (writer sys)) + 4 <= List.length nows)%nat ->
    let sys' := run sys (map EvMonitor nows) in
    at_pc (monitor sys') = PcCrashed \/
    (at_pc (monitor sys') = PcExited /\
     done (writer sys') = true /\
     queue (writer sys') = []).
Proof.
  intros sys nows Hclosing Hlive Hempty Hsteps sys'.
  assert (Hinv : closing_inv (writer sys) (monitor sys)).
  { split; [exact Hclosing|]. split; [exact Hempty|].
    intros Hpc. unfold ended in Hlive. rewrite Hpc in Hlive. discriminate. }
  destruct (drain_run nows sys Hinv) as [[_ [_ Hexit]] Hrank].
  fold sys' in Hexit, Hrank.
  assert (Hzero : drain_rank (writer sys') (monitor sys') = O).
  { assert (drain_rank (writer sys) (monitor sys)
            <= 2 * List.length (queue (writer sys)) + 4)%nat
      by (unfold drain_rank; destruct (at_pc (monitor sys)); lia).
    lia. }
  apply drain_rank_zero in Hzero. unfold ended in Hzero.
  destruct (at_pc (monitor sys')) eqn:Hpc; try discriminate.
  - right. split; [reflexivity|]. apply Hexit. reflexivity.
  - left. reflexivity.
Qed.

(** X4. Once [closing] is set, [2 * len(queue) + 4] monitor steps with no
    action of a producer in between end the goroutine, whatever the clock
    and the client do; unless it panicked, it has then closed [done] and
    left the queue empty.  (The monitor must not stand between a [Dequeue]
    that gave nil and its test of [closing] with events in the queue.) *)
Theorem close_drains_queue :
  forall (sys : System St) (nows : list Z),
    closing (writer sys) = true ->
    ended (monitor sys) = false ->
    (at_pc (monitor sys) = PcEmpty -> queue (writer sys) = []) ->
    (2 * List.length (queue (writer sys)) + 4 <= List.length nows)%nat ->
    let sys' := run sys (map EvMonitor nows) in
    at_pc (monitor sys') = PcCrashed \/
    (at_pc (monitor sys') = PcExited /\
     done (writer sys') = true /\
     queue (writer sys') = []).
Proof. exact drain_ends. Qed.

Lemma written_monitor nows : written (map EvMonitor nows) = [].
Proof. induction nows as [|now nows IH]; simpl; [reflexivity | exact IH]. Qed.

(** X5. A [Close] that does not race delivers everything.  If [Close] sets
    the flag while the monitor is running, not between a [Dequeue] that
    gave nil and the test of [closing] with events queued, and no producer
    acts afterwards, then after [2 * len(queue) + 4] monitor steps the
    monitor has panicked or has returned with [done] closed, the queue
    empty, and the batches it flushed holding, in order and once each,
    the initially queued and the written events. *)
Theorem clean_close_delivers_all :
  forall (c : CloudWatchWriter St) (evs : list Event) (nows : list Z),
    let closed := run (spawn c) (evs ++ [EvClose]) in
    ended (monitor closed) = false ->
    (at_pc (monitor closed) = PcEmpty -> queue (writer closed) = []) ->
    (2 * List.length (queue (writer closed)) + 4 <= List.length nows)%nat ->
    let sys := run closed (map EvMonitor nows) in
    at_pc (monitor sys) = PcCrashed \/
    (at_pc (monitor sys) = PcExited /\
     done (writer sys) = true /\
     queue (writer sys) = [] /\
     exists flushed new,
       calls (writer sys) = calls c ++ new /\
       sent_as flushed (putBatches new) /\
       List.concat flushed = sendable (queue c) ++ written evs).
Proof.
  intros c evs nows closed Hlive Hempty Hsteps sys.
  assert (Hclosing : closing (writer closed) = true).
  { unfold closed. rewrite run_app, run_one. reflexivity. }
  pose proof (drain_ends closed nows Hclosing Hlive Hempty Hsteps) as Hends.
  cbv zeta in Hends. fold sys in Hends.
  destruct Hends as [Hcrash|[Hexit [Hdone Hqueue]]].
  - left. exact Hcrash.
  - right. split; [exact Hexit|]. split; [exact Hdone|]. split; [exact Hqueue|].
    assert (Hw : written ((evs ++ [EvClose]) ++ map EvMonitor nows)
                 = written evs).
    { rewrite !written_app, written_monitor. simpl. rewrite !app_nil_r.
      reflexivity. }
    assert (Hcons : conserved c (sendable (queue c) ++ written evs)
                      (writer sys) (monitor sys)).
    { unfold sys, closed. rewrite <- run_app, <- Hw.
      apply (@conserved_run c ((evs ++ [EvClose]) ++ map EvMonitor nows)
               (sendable (queue c)) (spawn c)).
      right. exists [], []. simpl. rewrite app_nil_r.
      split; [reflexivity|]. split; [constructor | reflexivity]. }
    destruct Hcons as [Hdead|[flushed [new [Hc [Hsent Hall]]]]];
      [rewrite Hexit in Hdead; discriminate|].
    exists flushed, new. split; [exact Hc|]. split; [exact Hsent|].
    unfold pending in Hall. rewrite Hexit, Hqueue in Hall. simpl in Hall.
    rewrite app_nil_r in Hall. exact Hall.
Qed.

(** ** What a step leaves alone *)

Lemma Write_frame c log now :
  let c' := snd (Write c log now) in
  closing c' = closing c /\ done c' = done c /\
  batchInterval c' = batchInterval c /\
  nextSequenceToken c' = nextSequenceToken c /\ client c' = client c /\
  (err c' = err c \/ err c' = None).
Proof.
  unfold Write, getErr. simpl.
  destruct (err c) eqn:He; simpl; rewrite ?He; repeat split; auto.
Qed.

Lemma SetBatchInterval_frame c interval :
  let c' := snd (SetBatchInterval c interval) in
  closing c' = closing c /\ done c' = done c /\ queue c' = queue c /\
  nextSequenceToken c' = nextSequenceToken c /\ client c' = client c /\
  err c' = err c.
Proof.
  unfold SetBatchInterval. destruct (_ <? _); simpl; repeat split.
Qed.

(** The monitor changes neither the interval nor the closing flag, and
    closes [done] only on leaving through line 179 with the flag seen. *)
Lemma monitor_step_frame c m now :
  let r := queueMonitor_step c m now in
  batchInterval (fst r) = batchInterval c /\
  closing (fst r) = closing c /\
  (done (fst r) = done c \/
   (closing c = true /\ at_pc m = PcEmpty /\ at_pc (snd r) = PcExited /\
    done (fst r) = true)).
Proof.
  cbv zeta.
  assert (Hflush : forall m0 p b z t,
            (fun r : CloudWatchWriter St * Monitor =>
               batchInterval (fst r) = batchInterval c /\
               closing (fst r) = closing c /\
               (done (fst r) = done c \/
                (closing c = true /\ at_pc m = PcEmpty /\
                 at_pc (snd r) = PcExited /\ done (fst r) = true)))
              (after_sendBatch c m0 (fun c' =>
                 (c', {| at_pc := p; batch := b; batchSize := z;
                         nextSendTime := t c' |})))).
  { intros m0 p b z t. apply after_sendBatch_rule.
    - intros c' _ Hfp. cbn [fst snd].
      rewrite (fp_interval Hfp), (fp_closing Hfp), (fp_done Hfp). auto.
    - intros c' Hfp. cbn [fst snd].
      rewrite (fp_interval Hfp), (fp_closing Hfp), (fp_done Hfp). auto. }
  unfold queueMonitor_step.
  destruct (at_pc m) eqn:Hpc.
  - cbn [fst snd]. auto.
  - destruct (now >? nextSendTime m); [|cbn [fst snd]; auto].
    apply (Hflush m PcDequeue [] 0 (fun _ => nextSendTime m)).
  - clear Hflush.
    unfold Dequeue. destruct (queue c) as [|item rest]; [cbn [fst snd]; auto|].
    destruct (Message item) as [msg|]; [|cbn [fst snd]; auto].
    assert (Hcount : forall c1 m1,
              batchInterval c1 = batchInterval c -> closing c1 = closing c ->
              done c1 = done c ->
              batchInterval (fst (count_check c1 m1 now)) = batchInterval c /\
              closing (fst (count_check c1 m1 now)) = closing c /\
              (done (fst (count_check c1 m1 now)) = done c \/
               (closing c = true /\ PcDequeue = PcEmpty /\
                at_pc (snd (count_check c1 m1 now)) = PcExited /\
                done (fst (count_check c1 m1 now)) = true))).
    { intros c1 m1 Hi Hc Hd. unfold count_check.
      destruct (_ >=? _); [|cbn [fst snd]; auto].
      apply after_sendBatch_rule.
      - intros c' _ Hfp. cbn [fst snd].
        rewrite (fp_interval Hfp), (fp_closing Hfp), (fp_done Hfp). auto.
      - intros c' Hfp. cbn [fst snd].
        rewrite (fp_interval Hfp), (fp_closing Hfp), (fp_done Hfp). auto. }
    destruct (_ >? batchSizeLimit).
    + apply after_sendBatch_rule.
      * intros c' _ Hfp. rewrite size_and_count_flush_exclusive. cbn [fst snd].
        rewrite (fp_interval Hfp), (fp_closing Hfp), (fp_done Hfp). auto.
      * intros c' Hfp. cbn [fst snd].
        rewrite (fp_interval Hfp), (fp_closing Hfp), (fp_done Hfp). auto.
    + unfold append_event. apply Hcount; reflexivity.
  - clear Hflush.
    destruct (isClosing c) eqn:Hclosing; [|cbn [fst snd]; auto].
    apply after_sendBatch_rule.
    + intros c' _ Hfp. cbn [fst snd batchInterval closing done closeDone at_pc].
      rewrite (fp_interval Hfp), (fp_closing Hfp).
      split; [reflexivity|]. split; [reflexivity|]. right. auto.
    + intros c' Hfp. cbn [fst snd].
      rewrite (fp_interval Hfp), (fp_closing Hfp), (fp_done Hfp). auto.
  - cbn [fst snd]. auto.
  - cbn [fst snd]. auto.
Qed.

(** [done] across one action. *)
Lemma done_step (sys : System St) ev :
  let sys' := step sys ev in
  (closing (writer sys) = true -> closing (writer sys') = true) /\
  (done (writer sys') = done (writer sys) \/
   (done (writer sys') = true /\ closing (writer sys') = true /\
    at_pc (monitor sys') = PcExited)).
Proof.
  destruct ev as [log now|interval| |now|log now| ]; cbn zeta; simpl step.
  - destruct (Write_frame (writer sys) log now) as [Hc [Hd _]].
    cbn [writer monitor]. rewrite Hc, Hd. auto.
  - destruct (SetBatchInterval_frame (writer sys) interval) as [Hc [Hd _]].
    cbn [writer monitor]. rewrite Hc, Hd. auto.
  - cbn [writer monitor closing done setClosing]. auto.
  - pose proof (monitor_step_frame (writer sys) (monitor sys) now) as Hframe.
    cbv zeta in Hframe.
    destruct (queueMonitor_step (writer sys) (monitor sys) now) as [c' m'].
    cbn [fst snd writer monitor] in *.
    destruct Hframe as [_ [Hc Hd]]. rewrite Hc. split; [auto|].
    destruct Hd as [Hd|[Hcl [_ [Hexit Hd]]]]; [left; exact Hd|].
    right. auto.
  - cbn [writer monitor closing done Enqueue setQueue]. auto.
  - cbn [writer monitor closing done setErr]. auto.
Qed.

Lemma exited_step_is_identity c m now :
  at_pc m = PcExited -> queueMonitor_step c m now = (c, m).
Proof. intros Hpc. unfold queueMonitor_step. rewrite Hpc. reflexivity. Qed.

Lemma done_run evs :
  forall (sys : System St),
    let sys' := run sys evs in
    (closing (writer sys) = true -> closing (writer sys') = true) /\
    (done (writer sys') = done (writer sys) \/
     (done (writer sys') = true /\ closing (writer sys') = true /\
      at_pc (monitor sys') = PcExited)).
Proof.
  induction evs as [|ev evs IH]; intros sys; cbn zeta.
  - simpl. auto.
  - change (run sys (ev :: evs)) with (run (step sys ev) evs).
    destruct (done_step sys ev) as [Hc1 Hd1].
    destruct (IH (step sys ev)) as [Hc2 Hd2].
    split; [auto|].
    destruct Hd2 as [Hd2|Hd2]; [|right; exact Hd2].
    destruct Hd1 as [Hd1|[Hd1 [Hcl Hexit]]].
    + left. rewrite Hd2. exact Hd1.
    + right. split; [rewrite Hd2; exact Hd1|]. split; [auto|].
      destruct (@exited_run St _ evs (step sys ev) Hexit) as [Hpc _].
      exact Hpc.
Qed.

(** X6. The closing flag is never reset; and [done] is closed by nothing
    but the monitor, which closes it only with the closing flag set and
    as its last act: whenever [done] has changed, it is closed, the flag
    is set and the monitor has returned. *)
Theorem done_only_after_closing :
  forall (sys : System St) (evs : list Event),
    let sys' := run sys evs in
    (closing (writer sys) = true -> closing (writer sys') = true) /\
    (done (writer sys') = done (writer sys) \/
     (done (writer sys') = true /\ closing (writer sys') = true /\
      at_pc (monitor sys') = PcExited)).
Proof. intros sys evs. apply done_run. Qed.

(** A monitor step leaves the client, the token and the error slot alone,
    or it has made at least one remote call. *)
Lemma monitor_step_quiet_or_call c m now :
  let r := queueMonitor_step c m now in
  (nextSequenceToken (fst r) = nextSequenceToken c /\
   client (fst r) = client c /\ err (fst r) = err c /\
   calls (fst r) = calls c) \/
  (exists new, new <> [] /\ calls (fst r) = calls c ++ new).
Proof.
  cbv zeta.
  assert (Hquiet : forall m',
            (nextSequenceToken (fst (c, m')) = nextSequenceToken c /\
             client (fst (c, m')) = client c /\ err (fst (c, m')) = err c /\
             calls (fst (c, m')) = calls c) \/
            (exists new, new <> [] /\ calls (fst (c, m')) = calls c ++ new)).
  { intros m'. left. repeat split. }
  unfold queueMonitor_step.
  destruct (at_pc m) eqn:Hpc; try apply Hquiet.
  - destruct (now >? nextSendTime m); [|apply Hquiet].
    apply after_sendBatch_counted.
    + intros _. apply Hquiet.
    + intros c' new _ _ _ Hcalls Hnew _. right. exists new. split; assumption.
    + intros c' new _ _ Hcalls Hnew _. right. exists new. split; assumption.
  - unfold Dequeue. destruct (queue c) as [|item rest]; [apply Hquiet|].
    destruct (Message item) as [msg|]; [|left; repeat split].
    destruct (_ >? batchSizeLimit).
    + apply after_sendBatch_counted.
      * intros _. rewrite size_and_count_flush_exclusive. left. repeat split.
      * intros c' new _ _ _ Hcalls Hnew _.
        rewrite size_and_count_flush_exclusive.
        right. exists new. split; assumption.
      * intros c' new _ _ Hcalls Hnew _. right. exists new. split; assumption.
    + unfold append_event, count_check.
      destruct (_ >=? _); [|left; repeat split].
      apply after_sendBatch_counted.
      * intros _. left. repeat split.
      * intros c' new _ _ _ Hcalls Hnew _. right. exists new. split; assumption.
      * intros c' new _ _ Hcalls Hnew _. right. exists new. split; assumption.
  - destruct (isClosing c); [|apply Hquiet].
    apply after_sendBatch_counted.
    + intros _. left. repeat split.
    + intros c' new _ _ _ Hcalls Hnew _. right. exists new. split; assumption.
    + intros c' new _ _ Hcalls Hnew _. right. exists new. split; assumption.
Qed.

(** X7. The sequence token and the client move only in a monitor step that
    made a remote call, and so does the error slot, except that a [Write]
    may clear it: [Write], [SetBatchInterval], [Close] and every monitor
    step without a remote call leave the token as it was. *)
Theorem token_moves_only_with_remote_call :
  forall (sys : System St) (ev : Event),
    let sys' := step sys ev in
    (nextSequenceToken (writer sys') = nextSequenceToken (writer sys) /\
     client (writer sys') = client (writer sys) /\
     calls (writer sys') = calls (writer sys) /\
     (err (writer sys') = err (writer sys) \/
      (is_write ev = true /\ err (writer sys') = None))) \/
    ((exists now, ev = EvMonitor now) /\
     exists new, new <> [] /\
                 calls (writer sys') = calls (writer sys) ++ new).
Proof.
  intros sys ev. cbv zeta. destruct ev as [log now|interval| |now|log now| ]; simpl step.
  - left. cbn [writer].
    destruct (Write_frame (writer sys) log now) as [_ [_ [_ [Ht [Hcl He]]]]].
    rewrite Ht, Hcl, Write_calls. repeat split.
    destruct He as [He|He]; [left; exact He | right; split; [reflexivity | exact He]].
  - left. cbn [writer].
    destruct (SetBatchInterval_frame (writer sys) interval)
      as [_ [_ [_ [Ht [Hcl He]]]]].
    rewrite Ht, Hcl, He, SetBatchInterval_calls. repeat split. left. reflexivity.
  - left. cbn [writer]. repeat split. left. reflexivity.
  - pose proof (monitor_step_quiet_or_call (writer sys) (monitor sys) now) as Hm.
    cbv zeta in Hm.
    destruct (queueMonitor_step (writer sys) (monitor sys) now) as [c' m'].
    cbn [fst writer] in *.
    destruct Hm as [[Ht [Hcl [He Hc]]]|[new [Hnew Hc]]].
    + left. repeat split; try assumption. left. exact He.
    + right. split; [exists now; reflexivity|]. exists new. split; assumption.
  - left. cbn [writer]. repeat split. left. reflexivity.
  - left. cbn [writer]. repeat split. right. split; reflexivity.
Qed.

(** ** The bootstrap and the constructor *)

Lemma only_talked_refl c : only_talked c c.
Proof.
  unfold only_talked. repeat split. exists []. rewrite app_nil_r. split; reflexivity.
Qed.

Lemma only_talked_call c c' s k :
  only_talked c c' ->
  putBatches [k] = [] ->
  only_talked c (logCall (setClient c' s) k).
Proof.
  intros [Hi [Hq [He [Hg [Hs [Ht [Hcl [Hd [new [Hc Hp]]]]]]]]]] Hk.
  unfold only_talked. cbn [batchInterval queue err logGroupName logStreamName
    nextSequenceToken closing done calls logCall setClient].
  repeat split; try assumption.
  exists (new ++ [k]). split.
  - rewrite Hc, app_assoc. reflexivity.
  - rewrite putBatches_app, Hp, Hk. reflexivity.
Qed.

Lemma getOrCreateLogStream_talks fuel :
  forall c0 c,
    only_talked c0 c ->
    only_talked c0 (state_of (getOrCreateLogStream fuel c)).
Proof.
  induction fuel as [|fuel IH]; intros c0 c Hc; [exact Hc|].
  rewrite getOrCreateLogStream_S. cbv zeta.
  destruct (DescribeLogStreams _ _) as [[output e] s].
  set (c1 := logCall (setClient c s) _).
  assert (Hc1 : only_talked c0 c1)
    by (apply only_talked_call; [exact Hc | reflexivity]).
  assert (Hfail : only_talked c0
            (state_of
               (if As_rnf_opt e
                then
                  let '(e0, s0) := CreateLogGroup (client c1) (logGroupName c1) in
                  let c2 := logCall (setClient c1 s0)
                              (CallCreateLogGroup (logGroupName c1)) in
                  match e0 with
                  | Some _ =>
                      Returned
                        (None, Wrap e0 "cloudwatchlog.Client.CreateLogGroup") c2
                  | None => getOrCreateLogStream fuel c2
                  end
                else
                  Returned
                    (None, Wrap e "cloudwatchlogs.Client.DescribeLogStreams")
                    c1))).
  { destruct (As_rnf_opt e); [|exact Hc1].
    destruct (CreateLogGroup _ _) as [e0 s0].
    assert (Hc2 : only_talked c0
                    (logCall (setClient c1 s0)
                       (CallCreateLogGroup (logGroupName c1))))
      by (apply only_talked_call; [exact Hc1 | reflexivity]).
    destruct e0; [exact Hc2 | apply IH; exact Hc2]. }
  destruct e as [e|]; [exact Hfail|].
  destruct output as [out|]; [|exact Hfail].
  destruct (LogStreams out) as [|first rest]; [|exact Hc1].
  destruct (CreateLogStream _ _ _) as [e0 s0].
  assert (Hc2 : only_talked c0
                  (logCall (setClient c1 s0)
                     (CallCreateLogStream (logGroupName c1) (logStreamName c1))))
    by (apply only_talked_call; [exact Hc1 | reflexivity]).
  destruct e0; exact Hc2.
Qed.

(** X8. [getOrCreateLogStream] only talks to the service: however it ends,
    the interval, queue, error slot, names, token and flags of the writer
    are as before, and none of the calls it made is a [PutLogEvents]. *)
Theorem bootstrap_only_talks :
  forall fuel (c : CloudWatchWriter St),
    only_talked c (state_of (getOrCreateLogStream fuel c)).
Proof.
  intros fuel c. apply getOrCreateLogStream_talks, only_talked_refl.
Qed.

(** Where a non-nil error of the bootstrap comes from: the remote call
    made last, on the state [c1] the bootstrap had reached, failed with
    [cause], and [e] is [cause] under the label of that call. *)
Lemma bootstrap_error_source fuel :
  forall (c0 c : CloudWatchWriter St) r e w,
    only_talked c0 c ->
    getOrCreateLogStream fuel c = Returned (r, Some e) w ->
    r = None /\
    exists c1 cause s,
      only_talked c0 c1 /\
      ((exists out,
           DescribeLogStreams (client c1)
             {| dlsLogGroupName := logGroupName c0;
                dlsLogStreamNamePrefix := logStreamName c0 |}
             = (out, Some cause, s) /\
           As_rnf cause = false /\
           e = withMessage cause "cloudwatchlogs.Client.DescribeLogStreams" /\
           w = logCall (setClient c1 s)
                 (CallDescribeLogStreams
                    {| dlsLogGroupName := logGroupName c0;
                       dlsLogStreamNamePrefix := logStreamName c0 |})) \/
       (CreateLogGroup (client c1) (logGroupName c0) = (Some cause, s) /\
        e = withMessage cause "cloudwatchlog.Client.CreateLogGroup" /\
        w = logCall (setClient c1 s) (CallCreateLogGroup (logGroupName c0))) \/
       (CreateLogStream (client c1) (logGroupName c0) (logStreamName c0)
          = (Some cause, s) /\
        e = withMessage cause "cloudwatchlogs.Client.CreateLogStream" /\
        w = logCall (setClient c1 s)
              (CallCreateLogStream (logGroupName c0) (logStreamName c0)))).
Proof.
  induction fuel as [|fuel IH]; intros c0 c r e w Hc; [discriminate|].
  rewrite getOrCreateLogStream_S. cbv zeta.
  assert (Hg : logGroupName c = logGroupName c0) by apply Hc.
  assert (Hs : logStreamName c = logStreamName c0) by apply Hc.
  rewrite Hg, Hs.
  destruct (DescribeLogStreams _ _) as [[output e0] s] eqn:Hdescribe.
  set (input := {| dlsLogGroupName := logGroupName c0;
                   dlsLogStreamNamePrefix := logStreamName c0 |}) in *.
  set (c1 := logCall (setClient c s) (CallDescribeLogStreams input)).
  assert (Hc1 : only_talked c0 c1)
    by (apply only_talked_call; [exact Hc | reflexivity]).
  assert (Hg1 : logGroupName c1 = logGroupName c0) by apply Hc1.
  assert (Hs1 : logStreamName c1 = logStreamName c0) by apply Hc1.
  destruct e0 as [cause|].
  - (* the query failed *)
    cbv beta iota. unfold As_rnf_opt.
    destruct (As_rnf cause) eqn:Hrnf.
    + rewrite Hg1.
      destruct (CreateLogGroup _ _) as [e1 s0] eqn:Hcreate.
      destruct e1 as [cause1|].
      * intros Heq. cbn [Wrap] in Heq. injection Heq as <- <- <-.
        split; [reflexivity|]. exists c1, cause1, s0.
        split; [exact Hc1|]. right. left. repeat split. exact Hcreate.
      * apply IH. apply only_talked_call; [exact Hc1 | reflexivity].
    + intros Heq. cbn [Wrap] in Heq. injection Heq as <- <- <-.
      split; [reflexivity|]. exists c, cause, s.
      split; [exact Hc|]. left. exists output. repeat split; assumption.
  - destruct output as [out|]; cbv beta iota.
    + destruct (LogStreams out) as [|first rest]; [|discriminate].
      rewrite Hg1, Hs1.
      destruct (CreateLogStream _ _ _) as [e1 s0] eqn:Hcreate.
      destruct e1 as [cause1|]; [|discriminate].
      intros Heq. cbn [Wrap] in Heq. injection Heq as <- <- <-.
      split; [reflexivity|]. exists c1, cause1, s0.
      split; [exact Hc1|]. right. right. repeat split. exact Hcreate.
    + cbn [As_rnf_opt Wrap]. discriminate.
Qed.

(** X9. A non-nil error of [getOrCreateLogStream] comes with a nil stream,
    and it is the error of the remote call made last, wrapped by
    [errors.Wrap] under the label of that call: a [DescribeLogStreams]
    that failed with something other than a missing group, a
    [CreateLogGroup] or a [CreateLogStream] that failed; the bootstrap
    stops at that call. *)
Theorem bootstrap_error_has_no_stream :
  forall fuel (c : CloudWatchWriter St) r e w,
    getOrCreateLogStream fuel c = Returned (r, Some e) w ->
    r = None /\
    exists c1 cause s,
      only_talked c c1 /\
      ((exists out,
           DescribeLogStreams (client c1)
             {| dlsLogGroupName := logGroupName c;
                dlsLogStreamNamePrefix := logStreamName c |}
             = (out, Some cause, s) /\
           As_rnf cause = false /\
           e = withMessage cause "cloudwatchlogs.Client.DescribeLogStreams" /\
           w = logCall (setClient c1 s)
                 (CallDescribeLogStreams
                    {| dlsLogGroupName := logGroupName c;
                       dlsLogStreamNamePrefix := logStreamName c |})) \/
       (CreateLogGroup (client c1) (logGroupName c) = (Some cause, s) /\
        e = withMessage cause "cloudwatchlog.Client.CreateLogGroup" /\
        w = logCall (setClient c1 s) (CallCreateLogGroup (logGroupName c))) \/
       (CreateLogStream (client c1) (logGroupName c) (logStreamName c)
          = (Some cause, s) /\
        e = withMessage cause "cloudwatchlogs.Client.CreateLogStream" /\
        w = logCall (setClient c1 s)
              (CallCreateLogStream (logGroupName c) (logStreamName c)))).
Proof.
  intros fuel c r e w Hget.
  apply (@bootstrap_error_source fuel c c r e w (only_talked_refl c) Hget).
Qed.

(** X10. [NewWithClient] returns a writer exactly when it returns no error.
    Below the 200 ms floor it fails before any remote call.  The writer it
    returns has the interval asked for, the names given, an empty queue,
    no stored error, both flags down, the upload token of the stream the
    bootstrap returned, and no [PutLogEvents] behind it. *)
Theorem NewWithClient_result :
  forall fuel (cl : St) interval group stream r w,
    NewWithClient fuel cl interval group stream = Returned r w ->
    (fst r = None <-> snd r <> None) /\
    (interval < minBatchInterval ->
       fst r = None /\ calls w = [] /\
       snd r = Some (withMessage
                       (New "supplied batch interval is less than the minimum")
                       "set batch interval")) /\
    (forall w', fst r = Some w' ->
       w' = w /\ minBatchInterval <= interval /\
       batchInterval w = interval /\ queue w = [] /\ err w = None /\
       closing w = false /\ done w = false /\
       logGroupName w = group /\ logStreamName w = stream /\
       putBatches (calls w) = [] /\
       exists logStream w0,
         getOrCreateLogStream fuel
           {| client := cl; batchInterval := interval; queue := [];
              err := None; logGroupName := group; logStreamName := stream;
              nextSequenceToken := None; closing := false; done := false;
              calls := [] |} = Returned (Some logStream, None) w0 /\
         nextSequenceToken w = UploadSequenceToken logStream).
Proof.
  intros fuel cl interval group stream r w.
  unfold NewWithClient, SetBatchInterval.
  destruct (interval <? minBatchInterval) eqn:Hlt.
  - apply Z.ltb_lt in Hlt. intros Heq. injection Heq as <- <-. cbn [fst snd].
    split; [split; [discriminate | reflexivity]|].
    split; [|discriminate].
    intros _. split; [reflexivity|]. split; reflexivity.
  - apply Z.ltb_ge in Hlt. cbn [fst snd setBatchInterval client batchInterval
      queue err logGroupName logStreamName nextSequenceToken closing done calls].
    match goal with |- context [getOrCreateLogStream fuel ?c0] =>
      set (start := c0);
      pose proof (@getOrCreateLogStream_talks fuel start start
                    (only_talked_refl start)) as Htalk
    end.
    destruct (getOrCreateLogStream fuel start) as [[ls e] c1|c1|c1] eqn:Hget;
      try discriminate.
    cbn [state_of] in Htalk.
    destruct ls as [ls|], e as [e|]; try discriminate;
      intros Heq; injection Heq as <- <-; cbn [fst snd].
    + split; [split; [discriminate | reflexivity]|].
      split; [intros; lia | discriminate].
    + split; [split; [discriminate | intros Hno; exfalso; apply Hno; reflexivity]|].
      split; [intros; lia|].
      intros w' Hw'. injection Hw' as <-.
      destruct Htalk as [Hi [Hq [He [Hg [Hs [Ht [Hcl [Hd [new [Hc Hp]]]]]]]]]].
      cbn [batchInterval queue err logGroupName logStreamName
           nextSequenceToken closing done calls setNextSequenceToken].
      split; [reflexivity|]. split; [exact Hlt|].
      repeat (split; [assumption|]).
      split; [rewrite Hc; exact Hp|].
      exists ls, c1. split; [exact Hget | reflexivity].
    + split; [split; [discriminate | reflexivity]|].
      split; [intros; lia | discriminate].
Qed.

(** ** The size and the count trigger *)

(** X11. The count trigger.  When the event dequeued fits the size limit and
    brings the batch to 10,000 events, the step sends the batch with this
    event as its last, once (twice after an ordering conflict), and,
    unless the send panicked, starts an empty batch with the deadline one
    interval after the clock reading. *)
Theorem count_trigger_sends_full_batch :
  forall c m now item rest msg,
    at_pc m = PcDequeue ->
    queue c = item :: rest ->
    Message item = Some msg ->
    batchSize m + (len msg + additionalBytesPerLogEvent) <= batchSizeLimit ->
    maxNumLogEvents <= Z.of_nat (List.length (batch m)) + 1 ->
    let r := queueMonitor_step c m now in
    queue (fst r) = rest /\
    (exists new,
        calls (fst r) = calls c ++ new /\
        (putBatches new = [batch m ++ [item]] \/
         putBatches new = [batch m ++ [item]; batch m ++ [item]])) /\
    (at_pc (snd r) = PcCrashed \/
     snd r = {| at_pc := PcLoop; batch := []; batchSize := 0;
                nextSendTime := now + batchInterval c |}).
Proof.
  intros c m now item rest msg Hpc Hqueue Hmsg Hfits Hcount r. subst r.
  unfold queueMonitor_step, Dequeue. rewrite Hpc, Hqueue, Hmsg.
  replace (batchSize m + (len msg + additionalBytesPerLogEvent) >? batchSizeLimit)
    with false
    by (symmetry; rewrite Z.gtb_ltb; apply Z.ltb_ge; exact Hfits).
  unfold append_event, count_check. cbn [batch].
  replace (Z.of_nat (List.length (batch m ++ [item])) >=? maxNumLogEvents)
    with true
    by (symmetry; rewrite Z.geb_leb; apply Z.leb_le;
        rewrite length_app; simpl; lia).
  apply after_sendBatch_counted; cbn [batch].
  - intros Hnil. apply app_eq_nil in Hnil. destruct Hnil as [_ Hnil].
    discriminate.
  - intros c' new _ _ Hfp Hcalls _ Hputs. cbn [fst snd].
    split; [rewrite (fp_queue Hfp); reflexivity|].
    split; [exists new; split; [exact Hcalls | exact Hputs]|].
    right. unfold getBatchInterval. rewrite (fp_interval Hfp). reflexivity.
  - intros c' new _ Hfp Hcalls _ Hputs. cbn [fst snd].
    split; [rewrite (fp_queue Hfp); reflexivity|].
    split; [exists new; split; [exact Hcalls | exact Hputs]|].
    left. reflexivity.
Qed.

(** X12. The size trigger.  When the event dequeued would take a non-empty
    batch over 1,048,576 bytes, the step first sends the batch without
    this event, once (twice after an ordering conflict), and, unless the
    send panicked, starts a new batch with this event alone and the
    deadline one interval after the clock reading. *)
Theorem size_trigger_sends_before_append :
  forall c m now item rest msg,
    at_pc m = PcDequeue ->
    queue c = item :: rest ->
    Message item = Some msg ->
    batchSizeLimit < batchSize m + (len msg + additionalBytesPerLogEvent) ->
    batch m <> [] ->
    let r := queueMonitor_step c m now in
    queue (fst r) = rest /\
    (exists new,
        calls (fst r) = calls c ++ new /\
        (putBatches new = [batch m] \/ putBatches new = [batch m; batch m])) /\
    (at_pc (snd r) = PcCrashed \/
     snd r = {| at_pc := PcLoop; batch := [item];
                batchSize := len msg + additionalBytesPerLogEvent;
                nextSendTime := now + batchInterval c |}).
Proof.
  intros c m now item rest msg Hpc Hqueue Hmsg Hover Hne r. subst r.
  unfold queueMonitor_step, Dequeue. rewrite Hpc, Hqueue, Hmsg.
  replace (batchSize m + (len msg + additionalBytesPerLogEvent) >? batchSizeLimit)
    with true
    by (symmetry; rewrite Z.gtb_ltb; apply Z.ltb_lt; exact Hover).
  apply after_sendBatch_counted.
  - intros Hnil. contradiction.
  - intros c' new _ _ Hfp Hcalls _ Hputs.
    rewrite size_and_count_flush_exclusive. cbn [fst snd].
    split; [rewrite (fp_queue Hfp); reflexivity|].
    split; [exists new; split; [exact Hcalls | exact Hputs]|].
    right. unfold getBatchInterval. rewrite (fp_interval Hfp). reflexivity.
  - intros c' new _ Hfp Hcalls _ Hputs. cbn [fst snd].
    split; [rewrite (fp_queue Hfp); reflexivity|].
    split; [exists new; split; [exact Hcalls | exact Hputs]|].
    left. reflexivity.
Qed.

(** ** Holding events back until the deadline *)

Lemma eventSize_pos e : 0 < eventSize e.
Proof.
  unfold eventSize, len, additionalBytesPerLogEvent.
  destruct (Message e); lia.
Qed.

Lemma batchBytes_nonneg b : 0 <= batchBytes b.
Proof.
  induction b as [|e b IH]; simpl; [lia|].
  pose proof (eventSize_pos e). lia.
Qed.

Lemma held_back_step c0 start (sys : System St) ev rest :
  held_back c0 start (ev :: rest) (writer sys) (monitor sys) ->
  holds_back start (batchInterval c0) ev ->
  held_back c0 start rest (writer (step sys ev)) (monitor (step sys ev)).
Proof.
  destruct sys as [c m]. cbn [writer monitor].
  intros [Hclosing [Hinterval [Hcalls [Hpc [Hbytes Hcount]]]]] Hev.
  destruct ev as [log now|interval| |now|log now| ]; cbn [holds_back] in Hev;
    try contradiction.
  - (* Write *)
    cbn [step writer monitor].
    destruct (Write_frame c log now) as [Hc [_ [Hi _]]].
    assert (Hq : queue (snd (Write c log now))
                 = queue c ++ [{| Message := Some log;
                                  Timestamp := Some (Z.quot now Millisecond) |}]).
    { unfold Write, getErr. simpl. destruct (err c); reflexivity. }
    cbn [written] in Hbytes, Hcount. cbn [batchBytes List.length] in Hbytes, Hcount.
    unfold held_back. rewrite Hc, Hi, Write_calls, Hq.
    split; [exact Hclosing|]. split; [exact Hinterval|]. split; [exact Hcalls|].
    split; [exact Hpc|].
    rewrite batchBytes_app, length_app. cbn [batchBytes List.length]. split; lia.
  - (* a monitor step *)
    cbn [written] in Hbytes, Hcount. cbn [step writer monitor].
    unfold queueMonitor_step.
    destruct Hpc as [Hpc|[Hpc [Hdeadline Hsize]]].
    + (* PcStart *)
      rewrite Hpc. cbn [writer monitor]. unfold held_back, pending in *.
      rewrite Hpc in Hbytes, Hcount. cbn [at_pc batch batchSize nextSendTime].
      split; [exact Hclosing|]. split; [exact Hinterval|]. split; [exact Hcalls|].
      split; [|split; assumption].
      right. split; [left; reflexivity|].
      unfold getBatchInterval. rewrite Hinterval. split; [lia | reflexivity].
    + unfold held_back, pending in *.
      destruct Hpc as [Hpc|[Hpc|Hpc]]; rewrite Hpc in *.
      * (* PcLoop *)
        replace (now >? nextSendTime m) with false
          by (symmetry; rewrite Z.gtb_ltb; apply Z.ltb_ge; lia).
        cbn [writer monitor at_pc batch batchSize nextSendTime].
        split; [exact Hclosing|]. split; [exact Hinterval|].
        split; [exact Hcalls|]. split; [|split; assumption].
        right. split; [right; left; reflexivity|]. split; assumption.
      * (* PcDequeue *)
        unfold Dequeue. destruct (queue c) as [|item more] eqn:Hqueue.
        -- cbn [writer monitor at_pc batch batchSize nextSendTime].
           rewrite Hqueue.
           split; [exact Hclosing|]. split; [exact Hinterval|].
           split; [exact Hcalls|]. split; [|split; assumption].
           right. split; [right; right; reflexivity|]. split; assumption.
        -- cbn [batchBytes List.length] in Hbytes, Hcount.
           pose proof (eventSize_pos item) as Hitem.
           pose proof (batchBytes_nonneg more) as Hmore.
           pose proof (batchBytes_nonneg (written rest)) as Hrest.
           pose proof (batchBytes_nonneg (batch m)) as Hbatch.
           destruct (Message item) as [msg|] eqn:Hmsg.
           ++ assert (Hsz : eventSize item = len msg + additionalBytesPerLogEvent)
                by (unfold eventSize; rewrite Hmsg; reflexivity).
              replace (batchSize m + (len msg + additionalBytesPerLogEvent)
                       >? batchSizeLimit) with false
                by (symmetry; rewrite Z.gtb_ltb; apply Z.ltb_ge; lia).
              unfold append_event, count_check. cbn [batch batchSize nextSendTime].
              replace (Z.of_nat (List.length (batch m ++ [item]))
                       >=? maxNumLogEvents) with false
                by (symmetry; rewrite Z.geb_leb; apply Z.leb_gt;
                    rewrite length_app; simpl; lia).
              cbn [writer monitor at_pc batch batchSize nextSendTime
                   closing batchInterval calls queue setQueue].
              split; [exact Hclosing|]. split; [exact Hinterval|].
              split; [exact Hcalls|]. split.
              ** right. split; [left; reflexivity|]. split; [exact Hdeadline|].
                 rewrite batchBytes_app. cbn [batchBytes]. lia.
              ** rewrite batchBytes_app, length_app. cbn [batchBytes List.length].
                 split; lia.
           ++ cbn [writer monitor at_pc batch batchSize nextSendTime
                   closing batchInterval calls queue setQueue].
              split; [exact Hclosing|]. split; [exact Hinterval|].
              split; [exact Hcalls|]. split.
              ** right. split; [left; reflexivity|]. split; assumption.
              ** split; lia.
      * (* PcEmpty *)
        unfold isClosing. rewrite Hclosing.
        cbn [writer monitor at_pc batch batchSize nextSendTime].
        split; [exact Hclosing|]. split; [exact Hinterval|].
        split; [exact Hcalls|]. split; [|split; assumption].
        right. split; [left; reflexivity|]. split; assumption.
  - (* the Enqueue of a Write *)
    cbn [step writer monitor]. cbn [written] in Hbytes, Hcount.
    cbn [batchBytes List.length] in Hbytes, Hcount.
    unfold held_back.
    cbn [closing batchInterval calls queue Enqueue setQueue].
    split; [exact Hclosing|]. split; [exact Hinterval|]. split; [exact Hcalls|].
    split; [exact Hpc|].
    rewrite batchBytes_app, length_app. cbn [batchBytes List.length]. split; lia.
  - (* the clearing of the error slot by a Write *)
    cbn [step writer monitor]. cbn [written] in Hbytes, Hcount.
    unfold held_back. cbn [closing batchInterval calls queue setErr].
    split; [exact Hclosing|]. split; [exact Hinterval|]. split; [exact Hcalls|].
    split; [exact Hpc|]. split; assumption.
Qed.

Lemma held_back_run c0 start evs :
  forall (sys : System St),
    held_back c0 start evs (writer sys) (monitor sys) ->
    Forall (holds_back start (batchInterval c0)) evs ->
    held_back c0 start [] (writer (run sys evs)) (monitor (run sys evs)).
Proof.
  induction evs as [|ev evs IH]; intros sys Hinv Hevs; [exact Hinv|].
  change (run sys (ev :: evs)) with (run (step sys ev) evs).
  inversion Hevs as [|? ? Hev Hrest]; subst.
  apply IH; [|exact Hrest]. apply held_back_step; assumption.
Qed.

(** X13. No send before the deadline.  For a writer that is not closing, if
    every clock reading of the monitor lies within one batch interval of
    a time not after its first reading, no one changes the interval or
    closes, and the events queued and written stay within 1,048,576 bytes
    and below 10,000 in all, then the monitor makes no remote call: all
    these events are, in order, in its batch and in the queue. *)
Theorem no_send_before_deadline :
  forall (c : CloudWatchWriter St) (evs : list Event) (start : Z),
    closing c = false ->
    Forall (holds_back start (batchInterval c)) evs ->
    batchBytes (queue c) + batchBytes (written evs) <= batchSizeLimit ->
    Z.of_nat (List.length (queue c) + List.length (written evs))
      < maxNumLogEvents ->
    let sys := run (spawn c) evs in
    calls (writer sys) = calls c /\
    pending (monitor sys) ++ sendable (queue (writer sys))
      = sendable (queue c) ++ written evs.
Proof.
  intros c evs start Hclosing Hevs Hbytes Hcount sys.
  assert (Hheld : held_back c start [] (writer sys) (monitor sys)).
  { apply held_back_run; [|exact Hevs].
    unfold held_back, spawn, pending. cbn [writer monitor monitor_start at_pc].
    split; [exact Hclosing|]. split; [reflexivity|]. split; [reflexivity|].
    split; [left; reflexivity|]. cbn [batchBytes List.length]. split; lia. }
  destruct Hheld as [_ [_ [Hcalls [Hpc _]]]].
  split; [exact Hcalls|].
  assert (Hcons : conserved c (sendable (queue c) ++ written evs)
                    (writer sys) (monitor sys)).
  { apply (@conserved_run c evs (sendable (queue c)) (spawn c)).
    right. exists [], []. simpl. rewrite app_nil_r.
    split; [reflexivity|]. split; [constructor | reflexivity]. }
  destruct Hcons as [Hdead|[flushed [new [Hc [Hsent Hall]]]]].
  - exfalso. destruct Hpc as [Hpc|[[Hpc|[Hpc|Hpc]] _]];
      rewrite Hpc in Hdead; discriminate.
  - assert (Hnew : new = []).
    { rewrite Hcalls in Hc. rewrite <- (app_nil_r (calls c)) in Hc at 1.
      apply app_inv_head in Hc. symmetry. exact Hc. }
    subst new. simpl in Hsent. inversion Hsent; subst. exact Hall.
Qed.

(** ** Write at the grain of its locks *)

(** The three parts of a call, run one after the other, are [Write]. *)
Lemma Write_steps_uninterrupted c log now now' now'' :
  let s1 := Write_step c (Write_call log) now in
  let s2 := Write_step (fst s1) (snd s1) now' in
  let s3 := Write_step (fst s2) (snd s2) now'' in
  returns (snd s3) = Some (fst (Write c log now)) /\
  fst s3 = snd (Write c log now).
Proof.
  cbv zeta. unfold Write_step, Write_call, Write. cbn [at_wpc fst snd wlog lastErr].
  destruct (getErr (Enqueue c _)); cbn [fst snd returns]; split; reflexivity.
Qed.

(** With the error slot empty, an uninterrupted call returns the length
    of its line and a nil error. *)
Lemma Write_after_clear c log now now' now'' :
  err c = None ->
  let s1 := Write_step c (Write_call log) now in
  let s2 := Write_step (fst s1) (snd s1) now' in
  let s3 := Write_step (fst s2) (snd s2) now'' in
  returns (snd s3) = Some (len log, None).
Proof.
  intros Hnone.
  destruct (Write_steps_uninterrupted c log now now' now'') as [Hret _].
  cbv zeta. rewrite Hret. unfold Write, getErr. simpl. rewrite Hnone.
  reflexivity.
Qed.

(** A part of a call changes the writer as an action of the schedule
    does, or not at all. *)
Lemma Write_step_event c m (w : WriteCall) now :
  {| writer := fst (Write_step c w now); monitor := m |} =
  match Write_event w now with
  | Some ev => step {| writer := c; monitor := m |} ev
  | None => {| writer := c; monitor := m |}
  end.
Proof.
  unfold Write_step, Write_event.
  destruct (at_wpc w); try reflexivity.
  destruct (lastErr w); reflexivity.
Qed.

Lemma turn_is_schedule (p : Running St) (t : Turn) :
  exists evs, system (turn p t) = run (system p) evs.
Proof.
  destruct t as [ev|log|i now]; cbn [turn].
  - exists [ev]. reflexivity.
  - exists []. reflexivity.
  - destruct (nth_error (callers p) i) as [w|]; [|exists []; reflexivity].
    pose proof (Write_step_event (writer (system p)) (monitor (system p)) w now)
      as Hev.
    destruct (Write_step (writer (system p)) w now) as [c' w'].
    cbn [system fst] in *. rewrite Hev.
    destruct (Write_event w now) as [ev|].
    + exists [ev]. destruct (system p). reflexivity.
    + exists []. destruct (system p). reflexivity.
Qed.

(** Every interleaving of the parts of concurrent [Write]s with the other
    actions is a schedule: what holds of the writer and the monitor after
    every schedule holds after every such interleaving. *)
Lemma turns_are_schedules ts :
  forall (p : Running St),
  exists evs, system (run_turns p ts) = run (system p) evs.
Proof.
  induction ts as [|t ts IH]; intros p.
  - exists []. reflexivity.
  - change (run_turns p (t :: ts)) with (run_turns (turn p t) ts).
    destruct (IH (turn p t)) as [evs Hevs].
    destruct (turn_is_schedule p t) as [evs0 Hevs0].
    exists (evs0 ++ evs). rewrite Hevs, Hevs0. symmetry. apply run_app.
Qed.

(** C5, as the code has it.  The three parts of a call of [Write] may run
    on three states of the writer, [c1], [c2] and [c3], with anything in
    between.  The first part appends to the queue the event with the log
    line and the clock reading in milliseconds; the second reads the
    error slot and changes nothing; the third returns the error that was
    read, with 0 bytes, and clears the slot, or, when none was read,
    returns the length of the line with a nil error and leaves the slot
    alone.  If the slot did not change between the read and the report,
    the slot is empty afterwards and an uninterrupted [Write] that follows
    returns the length of its line and a nil error.  Run without
    interruption, the three parts are [Write]. *)
Theorem Write_reports_what_it_read :
  forall (log : string) (now now' now'' : Z) (c1 c2 c3 : CloudWatchWriter St),
    let s1 := Write_step c1 (Write_call log) now in
    let s2 := Write_step c2 (snd s1) now' in
    let s3 := Write_step c3 (snd s2) now'' in
    (queue (fst s1) =
       queue c1 ++ [{| Message := Some log;
                       Timestamp := Some (Z.quot now 1000000) |}] /\
     err (fst s1) = err c1) /\
    fst s2 = c2 /\
    returns (snd s3) =
      Some (match err c2 with
            | Some _ => (0, err c2)
            | None => (len log, None)
            end) /\
    fst s3 = match err c2 with
             | Some _ => setErr c3 None
             | None => c3
             end /\
    (err c3 = err c2 ->
       err (fst s3) = None /\
       forall log' n n' n'',
         let t1 := Write_step (fst s3) (Write_call log') n in
         let t2 := Write_step (fst t1) (snd t1) n' in
         let t3 := Write_step (fst t2) (snd t2) n'' in
         returns (snd t3) = Some (len log', None)) /\
    (c2 = fst s1 -> c3 = fst s2 ->
       returns (snd s3) = Some (fst (Write c1 log now)) /\
       fst s3 = snd (Write c1 log now)).
Proof.
  intros log now now' now'' c1 c2 c3. cbv zeta.
  split; [split; reflexivity|]. split; [reflexivity|].
  assert (Hthird :
            Write_step c3
              (snd (Write_step c2 (snd (Write_step c1 (Write_call log) now)) now'))
              now'' =
            match err c2 with
            | Some _ =>
                (setErr c3 None,
                 {| at_wpc := WcReturned; wlog := log; lastErr := err c2;
                    returns := Some (0, err c2) |})
            | None =>
                (c3,
                 {| at_wpc := WcReturned; wlog := log; lastErr := err c2;
                    returns := Some (len log, None) |})
            end).
  { unfold Write_step, Write_call, getErr.
    cbn [at_wpc wlog lastErr returns fst snd].
    destruct (err c2); reflexivity. }
  rewrite Hthird.
  split; [destruct (err c2); reflexivity|].
  split; [destruct (err c2); reflexivity|].
  split.
  - intros Hsame.
    assert (Hnone : err (fst match err c2 with
                             | Some _ =>
                                 (setErr c3 None,
                                  {| at_wpc := WcReturned; wlog := log;
                                     lastErr := err c2;
                                     returns := Some (0, err c2) |})
                             | None =>
                                 (c3,
                                  {| at_wpc := WcReturned; wlog := log;
                                     lastErr := err c2;
                                     returns := Some (len log, None) |})
                             end) = None).
    { destruct (err c2); [reflexivity | exact Hsame]. }
    split; [exact Hnone|].
    intros log' n n' n''. apply Write_after_clear. exact Hnone.
  - intros -> ->. rewrite <- Hthird.
    pose proof (Write_steps_uninterrupted c1 log now now' now'') as Hw.
    cbv zeta in Hw. exact Hw.
Qed.

End Further.

(** * Concrete runs for the further properties *)

(** The successful attempt, against the healthy service. *)
Lemma sendBatch_success_stores_token_witness :
  exists c',
    sendBatch booted [event "a" 0] 0 = Returned tt c' /\
    nextSequenceToken c' = Some "next"%string /\ err c' = None.
Proof.
  destruct (@sendBatch_success_stores_token Script ScriptClient
              booted [event "a" 0] 0
              {| NextSequenceToken := Some "next"%string |} healthy
              ltac:(discriminate) ltac:(discriminate) eq_refl)
    as [c' [Hsend [Htoken [Herr _]]]].
  exists c'. split; [exact Hsend|]. split; [exact Htoken | exact Herr].
Defined.

(** One event queued, [Close] called, six monitor steps. *)
Lemma close_drains_queue_witness :
  let sys := run (run (spawn booted) [EvWrite "a" 0; EvClose])
                 (map EvMonitor [1; 2; 3; 4; 5; 6]) in
  at_pc (monitor sys) = PcCrashed \/
  (at_pc (monitor sys) = PcExited /\ done (writer sys) = true /\
   queue (writer sys) = []).
Proof.
  apply (@close_drains_queue Script ScriptClient
           (run (spawn booted) [EvWrite "a" 0; EvClose]) [1; 2; 3; 4; 5; 6]
           eq_refl eq_refl).
  - intros Hpc. discriminate Hpc.
  - apply le_n.
Defined.

(** Two writes, then [Close], then eight monitor steps. *)
Lemma clean_close_delivers_all_witness :
  let sys := run (run (spawn booted)
                    ([EvMonitor 0; EvWrite "a" 1000000; EvWrite "b" 2000000]
                     ++ [EvClose]))
                 (map EvMonitor [3; 4; 5; 6; 7; 8; 9; 10]) in
  at_pc (monitor sys) = PcCrashed \/
  (at_pc (monitor sys) = PcExited /\
   done (writer sys) = true /\
   queue (writer sys) = [] /\
   exists flushed new,
     calls (writer sys) = calls booted ++ new /\
     sent_as flushed (putBatches new) /\
     List.concat flushed = [event "a" 1; event "b" 2]).
Proof.
  apply (@clean_close_delivers_all Script ScriptClient booted
           [EvMonitor 0; EvWrite "a" 1000000; EvWrite "b" 2000000]
           [3; 4; 5; 6; 7; 8; 9; 10] eq_refl).
  - intros Hpc. discriminate Hpc.
  - apply le_n.
Defined.

(** A query that fails with an access error. *)
Lemma bootstrap_error_has_no_stream_witness :
  exists c1 cause s,
    only_talked (fresh denied) c1 /\
    ((exists out,
         DescribeLogStreams (client c1)
           {| dlsLogGroupName := "group"; dlsLogStreamNamePrefix := "stream" |}
           = (out, Some cause, s) /\
         As_rnf cause = false /\
         withMessage (OtherError "AccessDeniedException")
           "cloudwatchlogs.Client.DescribeLogStreams"
           = withMessage cause "cloudwatchlogs.Client.DescribeLogStreams" /\
         logCall (setClient (fresh denied) healthy)
           (CallDescribeLogStreams
              {| dlsLogGroupName := "group";
                 dlsLogStreamNamePrefix := "stream" |})
           = logCall (setClient c1 s)
               (CallDescribeLogStreams
                  {| dlsLogGroupName := "group";
                     dlsLogStreamNamePrefix := "stream" |})) \/
     (CreateLogGroup (client c1) "group" = (Some cause, s) /\
      withMessage (OtherError "AccessDeniedException")
        "cloudwatchlogs.Client.DescribeLogStreams"
        = withMessage cause "cloudwatchlog.Client.CreateLogGroup" /\
      logCall (setClient (fresh denied) healthy)
        (CallDescribeLogStreams
           {| dlsLogGroupName := "group"; dlsLogStreamNamePrefix := "stream" |})
        = logCall (setClient c1 s) (CallCreateLogGroup "group")) \/
     (CreateLogStream (client c1) "group" "stream" = (Some cause, s) /\
      withMessage (OtherError "AccessDeniedException")
        "cloudwatchlogs.Client.DescribeLogStreams"
        = withMessage cause "cloudwatchlogs.Client.CreateLogStream" /\
      logCall (setClient (fresh denied) healthy)
        (CallDescribeLogStreams
           {| dlsLogGroupName := "group"; dlsLogStreamNamePrefix := "stream" |})
        = logCall (setClient c1 s) (CallCreateLogStream "group" "stream"))).
Proof.
  apply (@bootstrap_error_has_no_stream Script ScriptClient 1%nat
           (fresh denied) None
           (withMessage (OtherError "AccessDeniedException")
              "cloudwatchlogs.Client.DescribeLogStreams")
           (logCall (setClient (fresh denied) healthy)
              (CallDescribeLogStreams
                 {| dlsLogGroupName := "group";
                    dlsLogStreamNamePrefix := "stream" |}))
           eq_refl).
Defined.

(** The constructor against the healthy service. *)
Lemma NewWithClient_result_witness :
  batchInterval booted = defaultBatchInterval /\ queue booted = [] /\
  putBatches (calls booted) = [].
Proof.
  destruct (proj2 (proj2 (@NewWithClient_result Script ScriptClient 1%nat
                            healthy defaultBatchInterval "group"%string
                            "stream"%string (Some booted, None) booted
                            eq_refl)) booted eq_refl)
    as [_ [_ [Hi [Hq [_ [_ [_ [_ [_ [Hp _]]]]]]]]]].
  split; [exact Hi|]. split; [exact Hq | exact Hp].
Defined.

Lemma almost_full_length :
  Z.of_nat (List.length (batch monitor_almost_full)) = 9999.
Proof.
  unfold monitor_almost_full. cbn [batch]. rewrite repeat_length.
  apply Z2Nat.id. discriminate.
Qed.

(** The ten-thousandth event. *)
Lemma count_trigger_sends_full_batch_witness :
  queue (fst (queueMonitor_step (setQueue booted [event "z" 0])
                monitor_almost_full 1000000)) = [].
Proof.
  apply (@count_trigger_sends_full_batch Script ScriptClient
           (setQueue booted [event "z" 0]) monitor_almost_full 1000000
           (event "z" 0) [] "z"%string eq_refl eq_refl eq_refl).
  - discriminate.
  - rewrite almost_full_length. discriminate.
Defined.

(** An event of 1,048,551 bytes arriving on a batch of one small event. *)
Lemma size_trigger_sends_before_append_witness :
  queue (fst (queueMonitor_step (setQueue booted [event oversize 0])
                monitor_holding_one 1000000)) = [].
Proof.
  apply (@size_trigger_sends_before_append Script ScriptClient
           (setQueue booted [event oversize 0]) monitor_holding_one 1000000
           (event oversize 0) [] oversize eq_refl eq_refl eq_refl).
  - cbn [batchSize monitor_holding_one]. rewrite len_oversize. reflexivity.
  - discriminate.
Defined.

(** Two small writes within the first second of a 5 s interval. *)
Lemma no_send_before_deadline_witness :
  calls (writer (run (spawn booted) early_schedule)) = calls booted /\
  pending (monitor (run (spawn booted) early_schedule))
    ++ sendable (queue (writer (run (spawn booted) early_schedule)))
  = [event "a" 100; event "b" 400].
Proof.
  apply (@no_send_before_deadline Script ScriptClient booted early_schedule 0
           eq_refl).
  - unfold early_schedule.
    repeat (constructor; [cbn [holds_back batchInterval booted];
                          first [exact I | split; discriminate]|]).
    constructor.
  - discriminate.
  - reflexivity.
Defined.

(** ** Write under concurrency *)

(** C5, counterexample.  After a failed send has stored the throttling
    error: two calls of [Write] that both read the slot before either
    clears it both return that error; and a call that read it before a
    second send failed clears the slot after that failure, so the second
    error is in the slot of no state a [Write] reads: the call returns
    the first error, the next call returns a nil error, and both sends
    have failed. *)
Lemma concurrent_writes_break_exactly_once :
  (returned_by (run_turns unlucky double_report) 1
     = Some (0, Some (OtherError "ThrottlingException")) /\
   returned_by (run_turns unlucky double_report) 2
     = Some (0, Some (OtherError "ThrottlingException"))) /\
  (err (writer (system (run_turns unlucky first_failure)))
     = Some (OtherError "ThrottlingException") /\
   returned_by (run_turns unlucky lost_error) 0 = Some (1, None) /\
   returned_by (run_turns unlucky lost_error) 1
     = Some (0, Some (OtherError "ThrottlingException")) /\
   returned_by (run_turns unlucky lost_error) 2 = Some (1, None) /\
   err (writer (system (run_turns unlucky lost_error))) = None /\
   onPut (client (writer (system (run_turns unlucky lost_error)))) = [] /\
   List.length
     (putBatches (calls (writer (system (run_turns unlucky lost_error)))))
   = 2%nat).
Proof.
  split; [split; reflexivity|].
  repeat (split; [reflexivity|]). reflexivity.
Qed.

(** C5, on a writer that holds a stored error, without interruption. *)
Lemma Write_reports_what_it_read_witness :
  let c := setErr booted (Some (OtherError "ThrottlingException")) in
  let s1 := Write_step c (Write_call "a") 1000000 in
  let s2 := Write_step (fst s1) (snd s1) 1000000 in
  let s3 := Write_step (fst s2) (snd s2) 1000000 in
  returns (snd s3) = Some (0, Some (OtherError "ThrottlingException")) /\
  err (fst s3) = None /\
  returns (snd (Write_step
                  (fst (Write_step
                          (fst (Write_step (fst s3) (Write_call "b") 2000000))
                          (snd (Write_step (fst s3) (Write_call "b") 2000000))
                          2000000))
                  (snd (Write_step
                          (fst (Write_step (fst s3) (Write_call "b") 2000000))
                          (snd (Write_step (fst s3) (Write_call "b") 2000000))
                          2000000))
                  2000000))
  = Some (1, None).
Proof.
  cbv zeta.
  pose proof (@Write_reports_what_it_read Script "a"%string
                1000000 1000000 1000000
                (setErr booted (Some (OtherError "ThrottlingException")))
                (fst (Write_step
                        (setErr booted (Some (OtherError "ThrottlingException")))
                        (Write_call "a") 1000000))
                (fst (Write_step
                        (setErr booted (Some (OtherError "ThrottlingException")))
                        (Write_call "a") 1000000))) as Hw.
  cbv zeta in Hw.
  destruct Hw as [_ [_ [Hret [_ [Hsame _]]]]].
  destruct (Hsame eq_refl) as [Hnone Hnext].
  split; [exact Hret|]. split; [exact Hnone|].
  exact (Hnext "b"%string 2000000 2000000 2000000).
Defined.
